(** * Container.hpp: distances between containers and sequence transforms

    A shallow embedding of the template functions of namespace [dobots]
    (src/inc/Container.hpp).  The element type [T] of a container is a template
    parameter in the source; here it is a type carrying the operators the
    templates use ([Scalar]) and, for the metrics, the <cmath> functions
    ([Cmath]).  The exact instance is [R]; [Z] is an executable instance of the
    arithmetic part, and so is [float] (binary64), with its rounding.  The
    <cmath> functions are modelled over the reals only, so the metrics of
    [distance] are studied in exact arithmetic.

    Effects are explicit: what a function writes to [std::cerr] is a list of
    messages, a failing [assert] aborts (the source does not define NDEBUG),
    and behaviour the language leaves undefined (reading past a range,
    dereferencing an end iterator, leaving a value-returning function without
    [return]) is the outcome [Undefined]. *)

From Stdlib Require Import ZArith List Bool Arith Lia Reals Lra Permutation.
From Stdlib Require Import Ring_theory Ring.
From Stdlib Require Import Floats.
Import ListNotations.

Module dobots.

(** ** Element types *)

(** The operators the templates apply to a [T]: conversion [T(k)] from an
    integer literal, [+], [-], [*], unary [-], [<], [<=] and [std::abs]. *)
Class Scalar (T : Type) : Type := {
  of_int : Z -> T;
  add : T -> T -> T;
  sub : T -> T -> T;
  mul : T -> T -> T;
  opp : T -> T;
  less : T -> T -> bool;
  less_eq : T -> T -> bool;
  abs : T -> T
}.

(** [std::sqrt], [std::log] and [/], used by [distance] only. *)
Class Cmath (T : Type) : Type := {
  sqrt : T -> T;
  log : T -> T;
  div : T -> T -> T
}.

#[export] Instance Scalar_Z : Scalar Z := {|
  of_int := fun k => k;
  add := Z.add; sub := Z.sub; mul := Z.mul; opp := Z.opp;
  less := Z.ltb; less_eq := Z.leb; abs := Z.abs
|}.

#[export] Instance Scalar_R : Scalar R := {|
  of_int := IZR;
  add := Rplus; sub := Rminus; mul := Rmult; opp := Ropp;
  less := fun x y => if Rlt_dec x y then true else false;
  less_eq := fun x y => if Rle_dec x y then true else false;
  abs := Rabs
|}.

(** [double]: the operators of binary64, rounding to nearest; an integer
    literal converts exactly when it has at most 53 significant bits. *)
#[export] Instance Scalar_float : Scalar float := {|
  of_int := fun k =>
    match k with
    | Z0 => PrimFloat.zero
    | Zpos _ => PrimFloat.of_uint63 (Uint63.of_Z k)
    | Zneg p => PrimFloat.opp (PrimFloat.of_uint63 (Uint63.of_Z (Zpos p)))
    end;
  add := PrimFloat.add; sub := PrimFloat.sub; mul := PrimFloat.mul;
  opp := PrimFloat.opp;
  less := PrimFloat.ltb; less_eq := PrimFloat.leb; abs := PrimFloat.abs
|}.

#[export] Instance Cmath_R : Cmath R := {|
  sqrt := R_sqrt.sqrt;
  log := ln;
  div := Rdiv
|}.

(** ** Outcomes of a call *)

(** The lines written to [std::cerr]. *)
Inductive Msg : Type :=
| SizeUnequal (n1 n2 : nat)   (* "Container size unequal: n1 vs n2" *)
| UnknownMetric               (* "Unknown distance metric" *)
| NotYetImplemented.          (* "Not yet implemented" *)

Inductive Outcome (A : Type) : Type :=
| Returned (a : A)     (* the call returns [a] *)
| AssertFailed         (* an [assert] fails: the program aborts *)
| Undefined.           (* undefined behaviour *)
Arguments Returned {A} a.
Arguments AssertFailed {A}.
Arguments Undefined {A}.

(** A run: the messages written, then how the call ends. *)
Definition Run (A : Type) : Type := (list Msg * Outcome A)%type.

Definition ret {A} (a : A) : Run A := ([], Returned a).

Definition bind {A B} (m : Run A) (f : A -> Run B) : Run B :=
  match m with
  | (l, Returned a) => let (l', o) := f a in (l ++ l', o)
  | (l, AssertFailed) => (l, AssertFailed)
  | (l, Undefined) => (l, Undefined)
  end.

Declare Scope run_scope.
Delimit Scope run_scope with run.
Notation "x <- m ;; k" := (bind m (fun x => k))
  (at level 61, m at next level, right associativity) : run_scope.
Notation "m ;; k" := (bind m (fun _ => k))
  (at level 61, right associativity) : run_scope.
Open Scope run_scope.

Definition cerr (m : Msg) : Run unit := ([m], Returned tt).
Definition cassert (b : bool) : Run unit :=
  if b then ret tt else ([], AssertFailed).
Definition undefined {A} : Run A := ([], Undefined).

(** The value a run returns, if it returns. *)
Definition returned_value {A} (m : Run A) : option A :=
  match m with
  | (_, Returned a) => Some a
  | _ => None
  end.

(** ** Metric selectors *)

Inductive DistanceMetric : Type :=
| DM_EUCLIDEAN
| DM_DOTPRODUCT
| DM_BHATTACHARYYA
| DM_HELLINGER
| DM_MANHATTAN
| DM_CHEBYSHEV
| DM_BHATTACHARYYA_COEFFICIENT
| DM_SQUARED_HELLINGER
| DM_TYPES.

Inductive SetDistanceMetric : Type :=
| SDM_INFIMIM
| SDM_SUPREMUM
| SDM_HAUSDORFF
| SDM_SUPINF
| SDM_TYPES.

Section Templates.
Context {T : Type} `{ST : Scalar T}.

(** ** Element-wise kernels *)

(** [struct max]: [std::max(x, y)], that is [(x < y) ? y : x]. *)
Definition max (x y : T) : T := if less x y then y else x.

Definition euclidean (x y : T) : T := mul (sub x y) (sub x y).

Definition taxicab (x y : T) : T := abs (sub x y).

Definition battacharyya `{CT : Cmath T} (x y : T) : T := sqrt (mul x y).

Definition hellinger `{CT : Cmath T} (x y : T) : T :=
  let tmp := sub (sqrt x) (sqrt y) in mul tmp tmp.

(** [op_adjust<T>(mu)(x, y)]. *)
Definition op_adjust (mu_ : T) (x y : T) : T :=
  let result := add x (mul (sub x y) mu_) in result.

(** ** Standard algorithms used by the templates *)

(** [std::inner_product(first1, last1, first2, init, op1, op2)]: one step per
    element of the first range, [init = op1(init, op2(x, y))]; [None] when the
    second range ends before the first. *)
Fixpoint inner_product (seq1 seq2 : list T) (init : T)
    (op1 op2 : T -> T -> T) : option T :=
  match seq1 with
  | [] => Some init
  | x :: seq1' =>
      match seq2 with
      | [] => None
      | y :: seq2' => inner_product seq1' seq2' (op1 init (op2 x y)) op1 op2
      end
  end.

(** [std::transform(first1, last1, first2, d_first, op)], the values written;
    [None] when the second range ends before the first. *)
Fixpoint transform (op : T -> T -> T) (seq1 seq2 : list T) : option (list T) :=
  match seq1 with
  | [] => Some []
  | x :: seq1' =>
      match seq2 with
      | [] => None
      | y :: seq2' => option_map (cons (op x y)) (transform op seq1' seq2')
      end
  end.

(** [std::rotate(first, middle, last)] with [middle = first + m]: the element
    at [middle] becomes the first one. *)
Definition rotate {A} (l : list A) (m : nat) : list A := skipn m l ++ firstn m l.

(** The loop of [std::min_element(first, last, comp)] after [smallest = first]:
    [if (comp( *first, *smallest)) smallest = first]. *)
Fixpoint min_element_loop {A} (comp : A -> A -> Run bool) (smallest : A)
    (rest : list A) : Run A :=
  match rest with
  | [] => ret smallest
  | x :: rest' =>
      b <- comp x smallest ;;
      min_element_loop comp (if b then x else smallest) rest'
  end.

(** The loop of [std::max_element]: [if (comp( *largest, *first)) largest = first]. *)
Fixpoint max_element_loop {A} (comp : A -> A -> Run bool) (largest : A)
    (rest : list A) : Run A :=
  match rest with
  | [] => ret largest
  | x :: rest' =>
      b <- comp largest x ;;
      max_element_loop comp (if b then x else largest) rest'
  end.

(** [*std::min_element(first, last, comp)]: on an empty range the algorithm
    returns [last], which must not be dereferenced. *)
Definition deref_min_element {A} (l : list A) (comp : A -> A -> Run bool) : Run A :=
  match l with
  | [] => undefined
  | x :: rest => min_element_loop comp x rest
  end.

Definition deref_max_element {A} (l : list A) (comp : A -> A -> Run bool) : Run A :=
  match l with
  | [] => undefined
  | x :: rest => max_element_loop comp x rest
  end.

(** A result of an algorithm that read past the end of a range. *)
Definition in_range {A} (o : option A) : Run A :=
  match o with
  | Some a => ret a
  | None => undefined
  end.

(** ** increaseDistance, decreaseDistance *)

(** The two containers the iterators of [increaseDistance] and
    [decreaseDistance] point into. *)
Record Ranges : Type := mkRanges {
  tomove : list T;
  reference : list T
}.

Definition increaseDistance (r : Ranges) (mu : T) : Run Ranges :=
  cassert (less (of_int 0) mu) ;;
  cassert (less_eq mu (of_int 1)) ;;
  moved <- in_range (transform (op_adjust mu) (tomove r) (reference r)) ;;
  ret (mkRanges moved (reference r)).

Definition decreaseDistance (r : Ranges) (mu : T) : Run Ranges :=
  cassert (less (of_int 0) mu) ;;
  cassert (less_eq mu (of_int 1)) ;;
  moved <- in_range (transform (op_adjust (opp mu)) (tomove r) (reference r)) ;;
  ret (mkRanges moved (reference r)).

(** ** integral *)

(** The [while] loop of [integral]: [value] is the running sum, the ranges are
    what is left after the element just read; the values written to [result]. *)
Fixpoint integral_loop (value : T) (seq1 seq2 : list T) : option (list T) :=
  match seq1 with
  | [] => Some []
  | x :: seq1' =>
      match seq2 with
      | [] => None
      | y :: seq2' =>
          let value' := add value (mul x y) in
          option_map (cons value') (integral_loop value' seq1' seq2')
      end
  end.

(** [integral(first1, last1, first2, result)]: the values written through
    [result], in order. *)
Definition integral (seq1 seq2 : list T) : Run (list T) :=
  match seq1 with
  | [] => ret []
  | x :: seq1' =>
      match seq2 with
      | [] => undefined
      | y :: seq2' =>
          let value := mul x y in
          rest <- in_range (integral_loop value seq1' seq2') ;;
          ret (value :: rest)
      end
  end.

(** ** reverse_inner_product, circular_convolution *)

(** The loop of [reverse_inner_product]; [back2] holds the elements of the
    second container as [--last2] reaches them.  Only the reads count: the
    last [--last2], whose result is never dereferenced, is not modelled. *)
Fixpoint reverse_inner_product_loop (seq1 back2 : list T) (init : T) : option T :=
  match seq1 with
  | [] => Some init
  | x :: seq1' =>
      match back2 with
      | [] => None
      | y :: back2' => reverse_inner_product_loop seq1' back2' (add init (mul x y))
      end
  end.

Definition reverse_inner_product (seq1 seq2 : list T) (init : T) : option T :=
  reverse_inner_product_loop seq1 (rev seq2) init.

(** The containers [circular_convolution] works on: the two inputs and the
    values written through [result] so far. *)
Record ConvRanges : Type := mkConvRanges {
  first_range : list T;
  second_range : list T;
  written : list T
}.

(** One pass of [while (dist--)]: [std::rotate(first2, last2-shift, last2)]
    needs [last2-shift] inside the second range. *)
Fixpoint circular_convolution_loop (dist : nat) (c : ConvRanges) (shift : Z)
    : Run ConvRanges :=
  match dist with
  | O => ret c
  | S dist' =>
      let n := Z.of_nat (length (second_range c)) in
      if ((0 <=? shift)%Z && (shift <=? n)%Z)%bool then
        let rotated := rotate (second_range c) (Z.to_nat (n - shift)) in
        v <- in_range (reverse_inner_product (first_range c) rotated (of_int 0)) ;;
        circular_convolution_loop dist'
          (mkConvRanges (first_range c) rotated (written c ++ [v])) shift
      else undefined
  end.

Definition circular_convolution (seq1 seq2 : list T) (shift : Z) : Run ConvRanges :=
  let dist := length seq1 in
  circular_convolution_loop dist (mkConvRanges seq1 seq2 []) shift.

(** ** cauchy_product *)

(** The [while] loop of [cauchy_product]; [back2] holds the elements in front
    of [last2] as [--last2] reaches them. *)
Fixpoint cauchy_product_loop (value : T) (seq1 back2 : list T) : option (list T) :=
  match seq1 with
  | [] => Some []
  | x :: seq1' =>
      match back2 with
      | [] => None
      | y :: back2' =>
          let value' := add value (mul x y) in
          option_map (cons value') (cauchy_product_loop value' seq1' back2')
      end
  end.

(** [cauchy_product(first1, last1, last2, result)], with [seq2] the range that
    ends at [last2]: the values written through [result], in order. *)
Definition cauchy_product (seq1 seq2 : list T) : Run (list T) :=
  match seq1 with
  | [] => ret []
  | x :: seq1' =>
      match rev seq2 with
      | [] => undefined
      | y :: back2 =>
          let value := mul x y in
          rest <- in_range (cauchy_product_loop value seq1' back2) ;;
          ret (value :: rest)
      end
  end.

(** ** distance *)

Context `{CT : Cmath T}.

Definition distance (seq1 seq2 : list T) (metric : DistanceMetric) : Run T :=
  (if negb (length seq2 =? length seq1) then
     cerr (SizeUnequal (length seq1) (length seq2)) ;;
     cassert (length seq2 =? length seq1)
   else ret tt) ;;
  match metric with
  | DM_DOTPRODUCT =>
      in_range (inner_product seq1 seq2 (of_int 0) add mul)
  | DM_EUCLIDEAN =>
      s <- in_range (inner_product seq1 seq2 (of_int 0) add euclidean) ;;
      ret (sqrt s)
  | DM_BHATTACHARYYA =>
      s <- in_range (inner_product seq1 seq2 (of_int 0) add battacharyya) ;;
      ret (opp (log s))
  | DM_HELLINGER =>
      s <- in_range (inner_product seq1 seq2 (of_int 0) add hellinger) ;;
      ret (div (sqrt s) (sqrt (of_int 2)))
  | DM_CHEBYSHEV =>
      in_range (inner_product seq1 seq2 (of_int 0) max taxicab)
  | DM_MANHATTAN =>
      in_range (inner_product seq1 seq2 (of_int 0) add taxicab)
  | DM_BHATTACHARYYA_COEFFICIENT =>
      in_range (inner_product seq1 seq2 (of_int 0) add battacharyya)
  | DM_SQUARED_HELLINGER =>
      s <- in_range (inner_product seq1 seq2 (of_int 0) add battacharyya) ;;
      ret (sqrt (sub (of_int 1) s))
  | DM_TYPES =>
      cerr UnknownMetric ;;
      ret (of_int (-1))
  end.

(** ** Distances to and between sets of points

    A set is the sequence of points its iterators run through. *)

(** [comp_point_distance(point_metric, first_ref, last_ref)(x, y)]; the two
    operands of [<] are taken left to right. *)
Definition comp_point_distance (point_metric : DistanceMetric) (ref : list T)
    (x y : list T) : Run bool :=
  dx <- distance x ref point_metric ;;
  dy <- distance y ref point_metric ;;
  ret (less dx dy).

Definition distance_to_point (set : list (list T)) (point : list T)
    (set_metric : SetDistanceMetric) (point_metric : DistanceMetric) : Run T :=
  let result := of_int (-1) in
  match set_metric with
  | SDM_INFIMIM =>
      tmp <- deref_min_element set (comp_point_distance point_metric point) ;;
      distance tmp point point_metric
  | SDM_SUPREMUM =>
      tmp <- deref_max_element set (comp_point_distance point_metric point) ;;
      distance tmp point point_metric
  | _ =>
      cerr NotYetImplemented ;;
      ret result
  end.

(** [comp_point_set_distance(set_metric, point_metric, first_set, last_set)(x, y)]. *)
Definition comp_point_set_distance (set_metric : SetDistanceMetric)
    (point_metric : DistanceMetric) (set : list (list T))
    (x y : list T) : Run bool :=
  dx <- distance_to_point set x set_metric point_metric ;;
  dy <- distance_to_point set y set_metric point_metric ;;
  ret (less dx dy).

(** The [case SDM_SUPINF] of [distance_to_set]; the [SDM_HAUSDORFF] case calls
    the function again with this selector, once in each direction. *)
Definition distance_to_set_SUPINF (set1 set2 : list (list T))
    (point_metric : DistanceMetric) : Run T :=
  let overwrite_set_metric := SDM_INFIMIM in
  tmp <- deref_max_element set1
           (comp_point_set_distance overwrite_set_metric point_metric set2) ;;
  distance_to_point set2 tmp overwrite_set_metric point_metric.

Definition distance_to_set (set1 set2 : list (list T))
    (set_metric : SetDistanceMetric) (point_metric : DistanceMetric) : Run T :=
  match set_metric with
  | SDM_HAUSDORFF =>
      dist_xy <- distance_to_set_SUPINF set1 set2 point_metric ;;
      dist_yx <- distance_to_set_SUPINF set2 set1 point_metric ;;
      ret (max dist_xy dist_yx)
  | SDM_SUPINF =>
      distance_to_set_SUPINF set1 set2 point_metric
  | _ =>
      (* the switch is left by [break] and the function ends without [return] *)
      cerr NotYetImplemented ;;
      undefined
  end.

End Templates.

End dobots.

Import dobots.
Open Scope run_scope.

(** * Vocabulary of the statements *)

(** The metrics the [switch] of [distance] has a case for. *)
Definition implemented_metrics : list DistanceMetric :=
  [DM_DOTPRODUCT; DM_EUCLIDEAN; DM_BHATTACHARYYA; DM_HELLINGER; DM_CHEBYSHEV;
   DM_MANHATTAN; DM_BHATTACHARYYA_COEFFICIENT; DM_SQUARED_HELLINGER].

(** A run that returns, with a value satisfying [P]. *)
Definition returns_with {A} (P : A -> Prop) (m : Run A) : Prop :=
  exists l a, m = (l, Returned a) /\ P a.

Section Sums.
Context {T : Type} `{ST : Scalar T}.

(** The product of the two elements at index [i]. *)
Definition term (seq1 seq2 : list T) (i : nat) : T :=
  mul (nth i seq1 (of_int 0)) (nth i seq2 (of_int 0)).

(** The running dot-sum: the terms of index 0 to [k], added in that order. *)
Fixpoint dot_sum (seq1 seq2 : list T) (k : nat) : T :=
  match k with
  | O => term seq1 seq2 0
  | S k' => add (dot_sum seq1 seq2 k') (term seq1 seq2 k)
  end.

(** The sum kept by the loop: [value], then the terms of index 0 to [k] of
    what is left of the ranges. *)
Fixpoint sum_from (value : T) (seq1 seq2 : list T) (k : nat) : T :=
  match k with
  | O => add value (term seq1 seq2 0)
  | S k' => add (sum_from value seq1 seq2 k') (term seq1 seq2 k)
  end.

(** Points of the dimension [n]. *)
Definition dimension (n : nat) (p : list T) : Prop := length p = n.

End Sums.

(** [l] with its last [s] elements moved to the front: what
    [std::rotate(first, last - s, last)] leaves in the range. *)
Definition rotate_right {A} (l : list A) (s : nat) : list A :=
  rotate l (length l - s).

Section HistogramVocabulary.
Open Scope R_scope.

(** The sum of the bins. *)
Definition bin_sum (h : list R) : R := fold_right Rplus 0 h.

(** A normalized histogram: bins that are not negative and sum to 1. *)
Definition normalized (h : list R) : Prop :=
  Forall (fun x => 0 <= x) h /\ bin_sum h = 1.

(** The Bhattacharyya coefficient, the terms added from the first bin on. *)
Definition coefficient (a b : list R) : R :=
  fold_left (fun acc p => acc + R_sqrt.sqrt (fst p * snd p)) (combine a b) 0.

(** Histograms with disjoint support: no bin is occupied in both. *)
Definition disjoint_support (a b : list R) : Prop :=
  Forall (fun p => fst p = 0 \/ snd p = 0) (combine a b).

End HistogramVocabulary.

(** The sum of [f x y] over the pairs of elements at the same index. *)
Definition pair_sum (f : R -> R -> R) (a b : list R) : R :=
  fold_right (fun p s => (f (fst p) (snd p) + s)%R) 0%R (combine a b).

(** The largest [|x - y|] over the pairs of elements at the same index, 0 when
    there is none. *)
Definition largest_gap (a b : list R) : R :=
  fold_right (fun p s => Rmax (Rabs (fst p - snd p)) s) 0%R (combine a b).

Section ReversedSums.
Context {T : Type} `{ST : Scalar T}.

(** The product of the element of index [i] from the front of [seq1] and the
    element of index [i] from the back of [seq2]. *)
Definition reversed_term (seq1 seq2 : list T) (i : nat) : T :=
  mul (nth i seq1 (of_int 0)) (nth (length seq2 - S i) seq2 (of_int 0)).

(** The reversed terms of index 0 to [k], added in that order. *)
Fixpoint reversed_sum (seq1 seq2 : list T) (k : nat) : T :=
  match k with
  | O => reversed_term seq1 seq2 0
  | S k' => add (reversed_sum seq1 seq2 k') (reversed_term seq1 seq2 k)
  end.

End ReversedSums.

(** The value a run returns, 0 for a run that does not return. *)
Definition value_of (m : Run R) : R :=
  match returned_value m with
  | Some v => v
  | None => 0%R
  end.

(** * Properties *)

(** ** Runs *)

Lemma bind_ret_l {A B} (a : A) (f : A -> Run B) : bind (ret a) f = f a.
Proof. unfold bind, ret. destruct (f a); reflexivity. Qed.

Lemma bind_returned {A B} (l : list Msg) (a : A) (f : A -> Run B) :
  bind (l, Returned a) f = (l ++ fst (f a), snd (f a)).
Proof. unfold bind. destruct (f a); reflexivity. Qed.

Section DistanceErrors.
Context {T : Type} `{ST : Scalar T} `{CT : Cmath T}.

(** With ranges of equal size the size check writes nothing. *)
Lemma distance_size_check_passes (seq1 seq2 : list T) (k : Run T) :
  length seq1 = length seq2 ->
  ((if negb (length seq2 =? length seq1) then
      cerr (SizeUnequal (length seq1) (length seq2)) ;;
      cassert (length seq2 =? length seq1)
    else ret tt) ;; k) = k.
Proof.
  intros Hlen. rewrite Hlen, Nat.eqb_refl. simpl negb. cbv iota.
  unfold bind, ret. destruct k; reflexivity.
Qed.

(** C1 (as the code has it): for ranges of equal size and a selector that is
    none of the eight implemented metrics, [distance] writes "Unknown distance
    metric" to the error stream and returns the value [T(-1)]. *)
Theorem distance_unknown_metric_returns_minus_one
    (seq1 seq2 : list T) (metric : DistanceMetric) :
  ~ In metric implemented_metrics ->
  length seq1 = length seq2 ->
  distance seq1 seq2 metric = ([UnknownMetric], Returned (of_int (-1))).
Proof.
  intros Hnot Hlen. unfold distance.
  rewrite (distance_size_check_passes seq1 seq2 _ Hlen).
  destruct metric;
    try (exfalso; apply Hnot; unfold implemented_metrics; simpl; tauto).
  reflexivity.
Qed.

(** C6: for ranges of unequal size and every selector, [distance] reports the
    two sizes and stops at the failing assertion; no sum over a prefix is
    computed. *)
Theorem distance_size_mismatch_fails
    (seq1 seq2 : list T) (metric : DistanceMetric) :
  length seq1 <> length seq2 ->
  distance seq1 seq2 metric =
    ([SizeUnequal (length seq1) (length seq2)], AssertFailed).
Proof.
  intros Hlen. unfold distance.
  assert (Hneq : (length seq2 =? length seq1) = false).
  { apply Nat.eqb_neq. congruence. }
  rewrite Hneq. reflexivity.
Qed.

(** C3 (as the code has it): at the point-to-set level the selectors
    SDM_HAUSDORFF and SDM_SUPINF write "Not yet implemented" and return the
    value [T(-1)]; at the set-to-set level SDM_INFIMIM and SDM_SUPREMUM write
    "Not yet implemented". *)
Theorem set_distance_not_implemented
    (set set1 set2 : list (list T)) (point : list T)
    (point_metric : DistanceMetric) :
  distance_to_point set point SDM_HAUSDORFF point_metric =
    ([NotYetImplemented], Returned (of_int (-1))) /\
  distance_to_point set point SDM_SUPINF point_metric =
    ([NotYetImplemented], Returned (of_int (-1))) /\
  fst (distance_to_set set1 set2 SDM_INFIMIM point_metric) = [NotYetImplemented] /\
  fst (distance_to_set set1 set2 SDM_SUPREMUM point_metric) = [NotYetImplemented].
Proof. repeat split; reflexivity. Qed.

End DistanceErrors.

(** C1, witness: the selector DM_TYPES on two one-element ranges of reals. *)
Lemma distance_unknown_metric_returns_minus_one_witness :
  distance [1%R] [2%R] DM_TYPES = ([UnknownMetric], Returned (IZR (-1))).
Proof.
  apply (@distance_unknown_metric_returns_minus_one R Scalar_R Cmath_R
           [1%R] [2%R] DM_TYPES).
  - unfold implemented_metrics. simpl.
    intros H; repeat (destruct H as [H | H]; [discriminate H |]); exact H.
  - reflexivity.
Defined.

(** C1, counterexample: on the unknown selector the call does return, and the
    value returned is the number -1. *)
Lemma distance_unknown_metric_counterexample :
  returned_value (distance [1%R] [2%R] DM_TYPES) = Some (-1)%R.
Proof. reflexivity. Qed.

(** C6, witness: a one-element range against a two-element range. *)
Lemma distance_size_mismatch_fails_witness :
  distance [1%R] [1%R; 2%R] DM_EUCLIDEAN = ([SizeUnequal 1 2], AssertFailed).
Proof.
  apply (@distance_size_mismatch_fails R Scalar_R Cmath_R
           [1%R] [1%R; 2%R] DM_EUCLIDEAN).
  simpl. discriminate.
Defined.

(** C3, counterexample: SDM_HAUSDORFF at the point-to-set level returns a
    number, -1, after the message. *)
Lemma distance_to_point_not_implemented_counterexample :
  returned_value
    (distance_to_point [[1%R]] [1%R] SDM_HAUSDORFF DM_EUCLIDEAN) = Some (-1)%R.
Proof. reflexivity. Qed.

(** ** Moving a container towards or away from a reference *)

Section Moving.
Context {T : Type} `{ST : Scalar T}.

(** [std::transform] over two ranges, the second at least as long as the
    first: one value per element of the first, [op] of the two elements. *)
Lemma transform_elementwise (op : T -> T -> T) (seq1 seq2 : list T) :
  length seq1 <= length seq2 ->
  exists out,
    transform op seq1 seq2 = Some out /\
    length out = length seq1 /\
    forall i x y,
      nth_error seq1 i = Some x -> nth_error seq2 i = Some y ->
      nth_error out i = Some (op x y).
Proof.
  revert seq2. induction seq1 as [| a seq1 IH]; intros seq2 Hlen.
  - exists []. repeat split. intros [| i] x y Hx; discriminate Hx.
  - destruct seq2 as [| b seq2]; [simpl in Hlen; lia |].
    destruct (IH seq2) as (out & Hout & Hlenout & Hnth); [simpl in Hlen; lia |].
    exists (op a b :: out). simpl. rewrite Hout. repeat split.
    + simpl. now rewrite Hlenout.
    + intros [| i] x y Hx Hy; simpl in *.
      * now inversion Hx; inversion Hy.
      * now apply Hnth.
Qed.

Lemma transform_short_reference (op : T -> T -> T) (seq1 seq2 : list T) :
  length seq2 < length seq1 -> transform op seq1 seq2 = None.
Proof.
  revert seq2. induction seq1 as [| a seq1 IH]; intros [| b seq2] Hlen;
    simpl in *; try lia; try reflexivity.
  rewrite IH by lia. reflexivity.
Qed.

(** What both functions do once the two assertions on [mu] hold. *)
Lemma adjust_run (step : T) (target ref : list T) :
  length target = length ref ->
  exists moved,
    (moved <- in_range (transform (op_adjust step) target ref) ;;
     ret (mkRanges moved ref)) = ([], Returned (mkRanges moved ref)) /\
    length moved = length target /\
    forall i x y,
      nth_error target i = Some x -> nth_error ref i = Some y ->
      nth_error moved i = Some (add x (mul (sub x y) step)).
Proof.
  intros Hlen.
  destruct (transform_elementwise (op_adjust step) target ref)
    as (moved & Hrun & Hlenm & Hnth); [lia |].
  exists moved. rewrite Hrun. repeat split; assumption.
Qed.

(** C7: for a target and a reference of equal length and [0 < mu <= 1],
    [decreaseDistance] (moveToward) replaces every [target[i]] by
    [target[i] + (target[i] - reference[i]) * (-mu)] and [increaseDistance]
    (moveAway) by [target[i] + (target[i] - reference[i]) * mu]; the reference
    is left as it was; with [mu] outside (0, 1] either call stops at an
    assertion. *)
Theorem move_toward_and_away_elementwise (target ref : list T) (mu : T) :
  length target = length ref ->
  (less (of_int 0) mu = true -> less_eq mu (of_int 1) = true ->
   (exists moved,
      decreaseDistance (mkRanges target ref) mu =
        ([], Returned (mkRanges moved ref)) /\
      length moved = length target /\
      forall i x y,
        nth_error target i = Some x -> nth_error ref i = Some y ->
        nth_error moved i = Some (add x (mul (sub x y) (opp mu)))) /\
   (exists moved,
      increaseDistance (mkRanges target ref) mu =
        ([], Returned (mkRanges moved ref)) /\
      length moved = length target /\
      forall i x y,
        nth_error target i = Some x -> nth_error ref i = Some y ->
        nth_error moved i = Some (add x (mul (sub x y) mu)))) /\
  (less (of_int 0) mu = false \/ less_eq mu (of_int 1) = false ->
   decreaseDistance (mkRanges target ref) mu = ([], AssertFailed) /\
   increaseDistance (mkRanges target ref) mu = ([], AssertFailed)).
Proof.
  intros Hlen. split.
  - intros Hpos Hle. unfold decreaseDistance, increaseDistance.
    rewrite Hpos, Hle. cbn [cassert]. rewrite !bind_ret_l. cbn [tomove reference].
    split; apply adjust_run; assumption.
  - intros Hout. unfold decreaseDistance, increaseDistance.
    destruct (less (of_int 0) mu); [| split; reflexivity].
    destruct Hout as [Hout | Hout]; [discriminate Hout |].
    rewrite Hout. split; reflexivity.
Qed.

(** *** The step [mu = 1] *)

Hypothesis Tring :
  ring_theory (of_int 0) (of_int 1) add mul sub opp (@eq T).

Add Ring Tring_ring : Tring.

Lemma op_adjust_minus_one (x y : T) : op_adjust (opp (of_int 1)) x y = y.
Proof. unfold op_adjust. ring. Qed.

Lemma transform_replaces (target ref : list T) :
  length target = length ref ->
  transform (op_adjust (opp (of_int 1))) target ref = Some ref.
Proof.
  revert ref. induction target as [| x target IH]; intros [| y ref] Hlen;
    simpl in *; try discriminate; try reflexivity.
  rewrite IH by lia. rewrite op_adjust_minus_one. reflexivity.
Qed.

(** C4 (as the code has it): for an element type whose [+], [-], [*] and
    unary [-] form a ring (exact arithmetic, as on the integers and the reals)
    and where [0 < 1 <= 1] passes the assertions, [decreaseDistance]
    (moveToward) with [mu = 1] on ranges of equal length leaves the target
    equal to the reference. *)
Theorem move_toward_mu_one_replaces (target ref : list T) :
  less (of_int 0) (of_int 1) = true ->
  less_eq (of_int 1) (of_int 1) = true ->
  length target = length ref ->
  decreaseDistance (mkRanges target ref) (of_int 1) =
    ([], Returned (mkRanges ref ref)).
Proof.
  intros Hpos Hle Hlen. unfold decreaseDistance.
  rewrite Hpos, Hle. cbn [cassert]. rewrite !bind_ret_l. cbn [tomove reference].
  rewrite transform_replaces by assumption. reflexivity.
Qed.

End Moving.

(** C7, witness: integers, target [[10; 20]], reference [[4; 8]], [mu = 1]. *)
Lemma move_toward_and_away_elementwise_witness :
  (exists moved,
     decreaseDistance (mkRanges [10; 20] [4; 8])%Z 1%Z =
       ([], Returned (mkRanges moved [4; 8]%Z)) /\
     length moved = 2 /\
     forall i x y,
       nth_error [10; 20]%Z i = Some x -> nth_error [4; 8]%Z i = Some y ->
       nth_error moved i = Some (x + (x - y) * - 1)%Z) /\
  (exists moved,
     increaseDistance (mkRanges [10; 20] [4; 8])%Z 1%Z =
       ([], Returned (mkRanges moved [4; 8]%Z)) /\
     length moved = 2 /\
     forall i x y,
       nth_error [10; 20]%Z i = Some x -> nth_error [4; 8]%Z i = Some y ->
       nth_error moved i = Some (x + (x - y) * 1)%Z).
Proof.
  apply (proj1 (@move_toward_and_away_elementwise Z Scalar_Z
                  [10; 20]%Z [4; 8]%Z 1%Z eq_refl)); reflexivity.
Defined.

(** C4, witness: the literal example on integers, target [[0; 0]] and
    reference [[4; 4]]; the target becomes [[4; 4]]. *)
Lemma move_toward_mu_one_replaces_witness :
  decreaseDistance (mkRanges [0; 0] [4; 4])%Z 1%Z =
    ([], Returned (mkRanges [4; 4] [4; 4])%Z).
Proof.
  apply (@move_toward_mu_one_replaces Z Scalar_Z Zth [0; 0]%Z [4; 4]%Z);
    reflexivity.
Defined.

(** In binary64 the operators do not form a ring and the step [mu = 1] does
    not replace the target: [1e16 - 1] rounds to [1e16] and [1 - 2^-60] to 1,
    so the target [[1e16; 1]] moved towards [[1; 2^-60]] becomes [[0; 0]]. *)
Lemma move_toward_mu_one_binary64 :
  decreaseDistance (mkRanges [1e16; 1] [1; 0x1p-60])%float 1%float =
    ([], Returned (mkRanges [0; 0] [1; 0x1p-60])%float) /\
  mkRanges [0; 0]%float [1; 0x1p-60]%float <>
  mkRanges [1; 0x1p-60]%float [1; 0x1p-60]%float.
Proof.
  split.
  - vm_compute. reflexivity.
  - intros H.
    apply (f_equal (fun r => match tomove r with
                             | x :: _ => PrimFloat.eqb x 1
                             | [] => false
                             end)) in H.
    vm_compute in H. discriminate H.
Qed.

(** C4, counterexample: on target [[0; 0]], reference [[4; 4]] and [mu = 1]
    neither function leaves [[8; 8]] in the target: [decreaseDistance] leaves
    [[4; 4]] and [increaseDistance] leaves [[-4; -4]]. *)
Lemma move_toward_literal_counterexample :
  returned_value (decreaseDistance (mkRanges [0; 0] [4; 4])%Z 1%Z) =
    Some (mkRanges [4; 4] [4; 4])%Z /\
  returned_value (increaseDistance (mkRanges [0; 0] [4; 4])%Z 1%Z) =
    Some (mkRanges [-4; -4] [4; 4])%Z /\
  returned_value (decreaseDistance (mkRanges [0; 0] [4; 4])%Z 1%Z) <>
    Some (mkRanges [8; 8] [4; 4])%Z.
Proof. repeat split. discriminate. Qed.

(** ** integral *)

Section Integral.
Context {T : Type} `{ST : Scalar T}.

Lemma sum_from_cons (value x y : T) (seq1 seq2 : list T) (k : nat) :
  sum_from value (x :: seq1) (y :: seq2) (S k) =
  sum_from (add value (mul x y)) seq1 seq2 k.
Proof.
  induction k as [| k IH].
  - reflexivity.
  - change (sum_from value (x :: seq1) (y :: seq2) (S (S k)))
      with (add (sum_from value (x :: seq1) (y :: seq2) (S k))
                (term (x :: seq1) (y :: seq2) (S (S k)))).
    rewrite IH. reflexivity.
Qed.

Lemma dot_sum_cons (x y : T) (seq1 seq2 : list T) (k : nat) :
  dot_sum (x :: seq1) (y :: seq2) (S k) = sum_from (mul x y) seq1 seq2 k.
Proof.
  induction k as [| k IH].
  - reflexivity.
  - change (dot_sum (x :: seq1) (y :: seq2) (S (S k)))
      with (add (dot_sum (x :: seq1) (y :: seq2) (S k))
                (term (x :: seq1) (y :: seq2) (S (S k)))).
    rewrite IH. reflexivity.
Qed.

Lemma integral_loop_sums (seq1 : list T) :
  forall (seq2 : list T) (value : T),
    length seq1 = length seq2 ->
    exists out,
      integral_loop value seq1 seq2 = Some out /\
      length out = length seq1 /\
      forall k, k < length seq1 ->
        nth_error out k = Some (sum_from value seq1 seq2 k).
Proof.
  induction seq1 as [| x seq1 IH]; intros [| y seq2] value Hlen;
    try discriminate Hlen.
  - exists []. repeat split. intros k Hk. simpl in Hk. lia.
  - destruct (IH seq2 (add value (mul x y))) as (out & Hout & Hlenout & Hnth).
    { simpl in Hlen. lia. }
    exists (add value (mul x y) :: out). simpl integral_loop. rewrite Hout.
    repeat split.
    + simpl. now rewrite Hlenout.
    + intros [| k] Hk.
      * reflexivity.
      * rewrite sum_from_cons. simpl nth_error. apply Hnth. simpl in Hk. lia.
Qed.

Lemma integral_sums (seq1 seq2 : list T) :
  length seq1 = length seq2 ->
  exists out,
    integral seq1 seq2 = ([], Returned out) /\
    length out = length seq1 /\
    forall k, k < length seq1 ->
      nth_error out k = Some (dot_sum seq1 seq2 k).
Proof.
  destruct seq1 as [| x seq1], seq2 as [| y seq2]; intros Hlen;
    try discriminate Hlen.
  - exists []. repeat split. intros k Hk. simpl in Hk. lia.
  - destruct (integral_loop_sums seq1 seq2 (mul x y))
      as (out & Hout & Hlenout & Hnth).
    { simpl in Hlen. lia. }
    exists (mul x y :: out). unfold integral. rewrite Hout. repeat split.
    + simpl. now rewrite Hlenout.
    + intros [| k] Hk.
      * reflexivity.
      * rewrite dot_sum_cons. simpl nth_error. apply Hnth. simpl in Hk. lia.
Qed.

End Integral.

(** C9: for two ranges of equal length [integral] writes as many values as the
    ranges have elements, the one of index [k] being the sum of
    [seq1[i] * seq2[i]] for [i] from 0 to [k]; on [[1; 2; 3]] and [[1; 1; 1]]
    it writes [[1; 3; 6]]. *)
Theorem integral_running_dot_sums :
  (forall (T : Type) (ST : Scalar T) (seq1 seq2 : list T),
     length seq1 = length seq2 ->
     exists out,
       integral seq1 seq2 = ([], Returned out) /\
       length out = length seq1 /\
       forall k, k < length seq1 ->
         nth_error out k = Some (dot_sum seq1 seq2 k)) /\
  integral [1; 2; 3]%Z [1; 1; 1]%Z = ([], Returned [1; 3; 6]%Z).
Proof.
  split.
  - intros T ST seq1 seq2. apply integral_sums.
  - reflexivity.
Qed.

(** C9, witness: the general part at the integer ranges [[2; 3]] and [[5; 7]]. *)
Lemma integral_running_dot_sums_witness :
  exists out,
    integral [2; 3]%Z [5; 7]%Z = ([], Returned out) /\
    length out = 2 /\
    forall k, k < 2 ->
      nth_error out k = Some (dot_sum [2; 3]%Z [5; 7]%Z k).
Proof.
  apply (proj1 integral_running_dot_sums Z Scalar_Z [2; 3]%Z [5; 7]%Z).
  reflexivity.
Defined.

(** ** Histogram metrics over the reals *)

Section Histograms.
Open Scope R_scope.

Lemma inner_product_battacharyya (a : list R) :
  forall (b : list R) (init : R),
    length a = length b ->
    inner_product a b init add battacharyya =
      Some (fold_left (fun acc p => acc + R_sqrt.sqrt (fst p * snd p))
                      (combine a b) init).
Proof.
  induction a as [| x a IH]; intros [| y b] init Hlen; try discriminate Hlen.
  - reflexivity.
  - simpl in Hlen. simpl. apply IH. lia.
Qed.

(** The geometric mean of two bins is at most their arithmetic mean. *)
Lemma sqrt_mult_le_mean (x y : R) :
  0 <= x -> 0 <= y -> 0 <= R_sqrt.sqrt (x * y) <= (x + y) / 2.
Proof.
  intros Hx Hy. split; [apply sqrt_pos |].
  rewrite sqrt_mult by assumption.
  pose proof (sqrt_sqrt x Hx) as Hxx. pose proof (sqrt_sqrt y Hy) as Hyy.
  pose proof (Rle_0_sqr (R_sqrt.sqrt x - R_sqrt.sqrt y)) as Hsq.
  unfold Rsqr in Hsq.
  set (u := R_sqrt.sqrt x) in *. set (v := R_sqrt.sqrt y) in *. nra.
Qed.

Lemma coefficient_fold_bounds (a : list R) :
  forall (b : list R) (init : R),
    length a = length b ->
    Forall (fun x => 0 <= x) a -> Forall (fun x => 0 <= x) b ->
    init <=
      fold_left (fun acc p => acc + R_sqrt.sqrt (fst p * snd p)) (combine a b) init
      <= init + (bin_sum a + bin_sum b) / 2.
Proof.
  induction a as [| x a IH]; intros [| y b] init Hlen Ha Hb;
    try discriminate Hlen.
  - simpl. lra.
  - inversion Ha as [| ? ? Hx Ha']; inversion Hb as [| ? ? Hy Hb']; subst.
    simpl in Hlen. simpl.
    specialize (IH b (init + R_sqrt.sqrt (x * y)) ltac:(lia) Ha' Hb').
    pose proof (sqrt_mult_le_mean x y Hx Hy). unfold bin_sum in *. lra.
Qed.

Lemma coefficient_fold_zero (a : list R) :
  forall (b : list R) (init : R),
    length a = length b ->
    Forall (fun x => 0 <= x) a -> Forall (fun x => 0 <= x) b ->
    fold_left (fun acc p => acc + R_sqrt.sqrt (fst p * snd p)) (combine a b) init
      = init <->
    disjoint_support a b.
Proof.
  induction a as [| x a IH]; intros [| y b] init Hlen Ha Hb;
    try discriminate Hlen.
  - split; [constructor | reflexivity].
  - inversion Ha as [| ? ? Hx Ha']; inversion Hb as [| ? ? Hy Hb']; subst.
    simpl in Hlen. assert (Hlen' : length a = length b) by lia.
    unfold disjoint_support. simpl.
    pose proof (sqrt_pos (x * y)) as Hs.
    pose proof (coefficient_fold_bounds a b (init + R_sqrt.sqrt (x * y))
                  Hlen' Ha' Hb') as [Hlow _].
    split.
    + intros Hfold.
      assert (Hzero : R_sqrt.sqrt (x * y) = 0) by lra.
      constructor.
      * simpl. apply Rmult_integral, sqrt_eq_0; [| exact Hzero].
        now apply Rmult_le_pos.
      * apply (IH b (init + R_sqrt.sqrt (x * y)) Hlen' Ha' Hb'). lra.
    + intros Hd. inversion Hd as [| ? ? Hxy Hd']; subst. simpl in Hxy.
      assert (Hzero : R_sqrt.sqrt (x * y) = 0).
      { replace (x * y) with 0; [apply sqrt_0 |].
        destruct Hxy as [-> | ->]; ring. }
      apply (IH b (init + R_sqrt.sqrt (x * y)) Hlen' Ha' Hb') in Hd'. lra.
Qed.

Lemma distance_coefficient (a b : list R) :
  length a = length b ->
  distance a b DM_BHATTACHARYYA_COEFFICIENT = ([], Returned (coefficient a b)).
Proof.
  intros Hlen. unfold distance.
  rewrite (distance_size_check_passes a b _ Hlen).
  rewrite inner_product_battacharyya by assumption. reflexivity.
Qed.

Lemma distance_squared_hellinger (a b : list R) :
  length a = length b ->
  distance a b DM_SQUARED_HELLINGER =
    ([], Returned (R_sqrt.sqrt (1 - coefficient a b))).
Proof.
  intros Hlen. unfold distance.
  rewrite (distance_size_check_passes a b _ Hlen).
  rewrite inner_product_battacharyya by assumption. reflexivity.
Qed.

(** C5 (as the code has it, over the reals): for normalized histograms of
    equal length the Bhattacharyya coefficient [distance] returns is the sum
    of the [sqrt (a_i * b_i)] and lies in the closed interval from 0 to 1; it
    is 0 exactly when the histograms have disjoint support. *)
Theorem bhattacharyya_coefficient_bounds (a b : list R) :
  normalized a -> normalized b -> length a = length b ->
  distance a b DM_BHATTACHARYYA_COEFFICIENT = ([], Returned (coefficient a b)) /\
  0 <= coefficient a b <= 1 /\
  (coefficient a b = 0 <-> disjoint_support a b).
Proof.
  intros [Ha Hsa] [Hb Hsb] Hlen. split; [| split].
  - apply distance_coefficient, Hlen.
  - pose proof (coefficient_fold_bounds a b 0 Hlen Ha Hb) as H.
    fold (coefficient a b) in H. rewrite Hsa, Hsb in H. lra.
  - apply coefficient_fold_zero; assumption.
Qed.

Lemma normalized_1_0 : normalized [1; 0].
Proof.
  split; [repeat constructor; lra | unfold bin_sum; simpl; lra].
Qed.

Lemma normalized_0_1 : normalized [0; 1].
Proof.
  split; [repeat constructor; lra | unfold bin_sum; simpl; lra].
Qed.

Lemma coefficient_disjoint : coefficient [1; 0] [0; 1] = 0.
Proof.
  unfold coefficient. simpl.
  rewrite Rmult_0_r, Rmult_0_l, sqrt_0. lra.
Qed.

(** C5, witness: the histograms [[1; 0]] and [[0; 1]]. *)
Lemma bhattacharyya_coefficient_bounds_witness :
  distance [1; 0] [0; 1] DM_BHATTACHARYYA_COEFFICIENT =
    ([], Returned (coefficient [1; 0] [0; 1])) /\
  0 <= coefficient [1; 0] [0; 1] <= 1 /\
  (coefficient [1; 0] [0; 1] = 0 <-> disjoint_support [1; 0] [0; 1]).
Proof.
  apply (bhattacharyya_coefficient_bounds [1; 0] [0; 1]);
    [exact normalized_1_0 | exact normalized_0_1 | reflexivity].
Defined.

(** C5, counterexample: the normalized histograms [[1; 0]] and [[0; 1]] have
    coefficient 0, which is outside the half-open interval (0, 1]. *)
Lemma bhattacharyya_coefficient_zero_counterexample :
  normalized [1; 0] /\ normalized [0; 1] /\
  distance [1; 0] [0; 1] DM_BHATTACHARYYA_COEFFICIENT = ([], Returned 0) /\
  ~ (0 < 0 <= 1).
Proof.
  split; [exact normalized_1_0 |]. split; [exact normalized_0_1 |]. split.
  - rewrite distance_coefficient by reflexivity. now rewrite coefficient_disjoint.
  - lra.
Qed.

Lemma normalized_9_7 : normalized [9 / 16; 7 / 16].
Proof.
  split; [repeat constructor; lra | unfold bin_sum; simpl; lra].
Qed.

Lemma coefficient_three_quarters : coefficient [9 / 16; 7 / 16] [1; 0] = 3 / 4.
Proof.
  unfold coefficient. simpl.
  replace (9 / 16 * 1) with (3 / 4 * (3 / 4)) by lra.
  rewrite sqrt_square by lra. rewrite Rmult_0_r, sqrt_0. lra.
Qed.

(** C2, the code at a failing input: for the normalized histograms
    [[9/16; 7/16]] and [[1; 0]] the coefficient is 3/4, so the squared
    Hellinger distance is 1/4, and [distance] with DM_SQUARED_HELLINGER
    returns 1/2, the square root of it. *)
Theorem squared_hellinger_returns_root :
  normalized [9 / 16; 7 / 16] /\ normalized [1; 0] /\
  distance [9 / 16; 7 / 16] [1; 0] DM_BHATTACHARYYA_COEFFICIENT =
    ([], Returned (3 / 4)) /\
  distance [9 / 16; 7 / 16] [1; 0] DM_SQUARED_HELLINGER =
    ([], Returned (1 / 2)) /\
  1 / 2 <> 1 - 3 / 4.
Proof.
  split; [exact normalized_9_7 |]. split; [exact normalized_1_0 |].
  split; [| split].
  - rewrite distance_coefficient by reflexivity.
    now rewrite coefficient_three_quarters.
  - rewrite distance_squared_hellinger by reflexivity.
    rewrite coefficient_three_quarters.
    replace (1 - 3 / 4) with (1 / 2 * (1 / 2)) by lra.
    rewrite sqrt_square by lra. reflexivity.
  - lra.
Qed.

End Histograms.

(** ** circular_convolution *)

Section Rotation.
Context {A : Type}.

Lemma rotate_length (l : list A) (m : nat) : length (rotate l m) = length l.
Proof.
  unfold rotate. rewrite length_app, Nat.add_comm, <- length_app.
  now rewrite firstn_skipn.
Qed.

Lemma rotate_permutation (l : list A) (m : nat) : Permutation l (rotate l m).
Proof.
  unfold rotate. rewrite <- (firstn_skipn m l) at 1. apply Permutation_app_comm.
Qed.

Lemma rotate_nth_error (l : list A) (m i : nat) :
  m <= length l -> i < length l ->
  nth_error (rotate l m) i = nth_error l ((i + m) mod length l).
Proof.
  intros Hm Hi. unfold rotate.
  destruct (Nat.lt_ge_cases i (length l - m)) as [Hlt | Hge].
  - rewrite nth_error_app1 by (rewrite length_skipn; exact Hlt).
    rewrite nth_error_skipn. rewrite Nat.mod_small by lia.
    f_equal. lia.
  - rewrite nth_error_app2 by (rewrite length_skipn; exact Hge).
    rewrite length_skipn.
    replace ((i + m) mod length l) with (i - (length l - m)).
    + rewrite nth_error_firstn.
      destruct (Nat.ltb_spec (i - (length l - m)) m); [reflexivity | lia].
    + replace (i + m) with ((i - (length l - m)) + 1 * length l) by lia.
      rewrite Nat.Div0.mod_add. symmetry. apply Nat.mod_small. lia.
Qed.

Lemma rotate_right_length (l : list A) (s : nat) :
  length (rotate_right l s) = length l.
Proof. apply rotate_length. Qed.

Lemma rotate_right_0 (l : list A) : rotate_right l 0 = l.
Proof.
  unfold rotate_right, rotate. rewrite Nat.sub_0_r, skipn_all, firstn_all.
  reflexivity.
Qed.

(** Two rotations to the right are one, by the sum of the two modulo the
    length. *)
Lemma rotate_right_twice (l : list A) (r s : nat) :
  r <= length l -> s <= length l ->
  rotate_right (rotate_right l r) s = rotate_right l ((r + s) mod length l).
Proof.
  intros Hr Hs. destruct l as [| a l'].
  { reflexivity. }
  set (l := a :: l') in *. set (n := length l) in *.
  assert (Hn : n <> 0) by (unfold n, l; simpl; lia).
  assert (Ht : (r + s) mod n < n) by (apply Nat.mod_upper_bound; exact Hn).
  apply nth_error_ext. intros i.
  destruct (Nat.lt_ge_cases i n) as [Hi | Hi].
  - unfold rotate_right. rewrite !rotate_length. fold n.
    rewrite rotate_nth_error by (rewrite rotate_length; fold n; lia).
    rewrite rotate_length. fold n.
    rewrite rotate_nth_error
      by (fold n; try lia; apply Nat.mod_upper_bound; exact Hn).
    rewrite rotate_nth_error by (fold n; lia).
    fold n. f_equal.
    rewrite Nat.Div0.add_mod_idemp_l.
    pose proof (Nat.div_mod_eq (r + s) n) as Hdiv.
    set (q := (r + s) / n) in *. set (t := (r + s) mod n) in *.
    assert (Hq : q = 0 \/ q = 1 \/ q = 2) by nia.
    destruct Hq as [Hq | [Hq | Hq]]; rewrite Hq in Hdiv.
    + replace (i + (n - s) + (n - r)) with (i + (n - t) + 1 * n) by lia.
      now rewrite Nat.Div0.mod_add.
    + f_equal. lia.
    + replace (i + (n - t)) with (i + (n - s) + (n - r) + 1 * n) by lia.
      now rewrite Nat.Div0.mod_add.
  - rewrite !(proj2 (nth_error_None _ _)); [reflexivity | |];
      rewrite !rotate_right_length; exact Hi.
Qed.

End Rotation.

Section Convolution.
Context {T : Type} `{ST : Scalar T}.

Lemma reverse_inner_product_loop_reads (seq1 : list T) :
  forall (back2 : list T) (init : T),
    length seq1 <= length back2 ->
    exists v, reverse_inner_product_loop seq1 back2 init = Some v.
Proof.
  induction seq1 as [| x seq1 IH]; intros back2 init Hlen.
  - now exists init.
  - destruct back2 as [| y back2]; [simpl in Hlen; lia |].
    simpl. apply IH. simpl in Hlen. lia.
Qed.

(** The loop, [dist] passes on: the first range is not touched, the second one
    has been rotated to the right by [dist * s] positions in all, and [dist]
    values have been written. *)
Lemma circular_convolution_loop_effect (s : nat) (dist : nat) :
  forall c : ConvRanges,
    s <= length (second_range c) ->
    length (first_range c) <= length (second_range c) ->
    exists out,
      circular_convolution_loop dist c (Z.of_nat s) =
        ([], Returned
               (mkConvRanges (first_range c)
                  (rotate_right (second_range c)
                     ((dist * s) mod length (second_range c)))
                  (written c ++ out))) /\
      length out = dist.
Proof.
  induction dist as [| dist IH]; intros [seq1 seq2 w] Hs Hlen;
    cbn [first_range second_range written] in *.
  - exists []. split; [| reflexivity]. cbn [circular_convolution_loop Nat.mul].
    rewrite Nat.Div0.mod_0_l, rotate_right_0, app_nil_r. reflexivity.
  - cbn [circular_convolution_loop first_range second_range written].
    assert (Hcond : ((0 <=? Z.of_nat s)%Z &&
                     (Z.of_nat s <=? Z.of_nat (length seq2))%Z)%bool = true).
    { apply andb_true_intro. split; apply Z.leb_le; lia. }
    rewrite Hcond.
    replace (Z.to_nat (Z.of_nat (length seq2) - Z.of_nat s))
      with (length seq2 - s) by lia.
    fold (rotate_right seq2 s).
    destruct (reverse_inner_product_loop_reads seq1
                (rev (rotate_right seq2 s)) (of_int 0)) as [v Hv].
    { rewrite length_rev, rotate_right_length. exact Hlen. }
    unfold reverse_inner_product. rewrite Hv. cbn [in_range].
    rewrite bind_ret_l.
    destruct (IH (mkConvRanges seq1 (rotate_right seq2 s) (w ++ [v])))
      as (out & Hrun & Hout);
      cbn [first_range second_range written];
      try (rewrite rotate_right_length; assumption).
    cbn [first_range second_range written] in Hrun.
    exists (v :: out). split; [| simpl; now rewrite Hout].
    rewrite Hrun. rewrite rotate_right_length.
    assert (Hmod : (dist * s) mod length seq2 <= length seq2).
    { destruct seq2 as [| y seq2]; [simpl in *; subst; simpl; lia |].
      apply Nat.lt_le_incl, Nat.mod_upper_bound. discriminate. }
    rewrite rotate_right_twice by assumption.
    rewrite Nat.Div0.add_mod_idemp_r. rewrite <- app_assoc.
    reflexivity.
Qed.

(** C10 (as the code has it): with [0 <= shift <= len(seq2)] and
    [len(seq1) <= len(seq2)], [circular_convolution] leaves the first range as
    it was, writes [len(seq1)] values, and leaves in the second range its
    values rotated to the right by [(len(seq1) * shift) mod len(seq2)]
    positions, a permutation of them; for ranges of equal length that is the
    second range as it was before the call. *)
Theorem circular_convolution_effect (seq1 seq2 : list T) (shift : Z) :
  (0 <= shift <= Z.of_nat (length seq2))%Z ->
  length seq1 <= length seq2 ->
  let seq2' :=
    rotate_right seq2 ((length seq1 * Z.to_nat shift) mod length seq2) in
  (exists out,
     circular_convolution seq1 seq2 shift =
       ([], Returned (mkConvRanges seq1 seq2' out)) /\
     length out = length seq1) /\
  Permutation seq2 seq2' /\
  (length seq1 = length seq2 -> seq2' = seq2).
Proof.
  intros Hshift Hlen seq2'. split; [| split].
  - unfold circular_convolution.
    destruct (circular_convolution_loop_effect (Z.to_nat shift) (length seq1)
                (mkConvRanges seq1 seq2 []))
      as (out & Hrun & Hout); cbn [first_range second_range written];
      try lia.
    cbn [first_range second_range written app] in Hrun.
    rewrite Z2Nat.id in Hrun by lia.
    exists out. split; assumption.
  - apply rotate_permutation.
  - intros Heq. unfold seq2'. rewrite Heq, Nat.mul_comm, Nat.Div0.mod_mul.
    apply rotate_right_0.
Qed.

End Convolution.

(** C10, witness: integers, [[1; 2]] against [[4; 5; 6]] with shift 1; the
    second range is left rotated by two positions. *)
Lemma circular_convolution_effect_witness :
  (exists out,
     circular_convolution [1; 2]%Z [4; 5; 6]%Z 1 =
       ([], Returned (mkConvRanges [1; 2]%Z [5; 6; 4]%Z out)) /\
     length out = 2) /\
  Permutation [4; 5; 6]%Z [5; 6; 4]%Z /\
  (2 = 3 -> [5; 6; 4]%Z = [4; 5; 6]%Z).
Proof.
  apply (@circular_convolution_effect Z Scalar_Z [1; 2]%Z [4; 5; 6]%Z 1%Z).
  - simpl. lia.
  - simpl. lia.
Defined.

(** C10, counterexample: [[1; 2; 3]] against [[4; 5; 6]] with the default
    shift 1; after the call the second range holds [[4; 5; 6]], as before. *)
Lemma circular_convolution_unchanged_counterexample :
  circular_convolution [1; 2; 3]%Z [4; 5; 6]%Z 1 =
    ([], Returned (mkConvRanges [1; 2; 3]%Z [4; 5; 6]%Z [31; 31; 28]%Z)).
Proof. reflexivity. Qed.

(** ** Distances between sets *)

Lemma returns_with_bind {A B} (P : A -> Prop) (Q : B -> Prop)
    (m : Run A) (f : A -> Run B) :
  returns_with P m ->
  (forall a, P a -> returns_with Q (f a)) ->
  returns_with Q (bind m f).
Proof.
  intros (l & a & Hm & Ha) Hf.
  destruct (Hf a Ha) as (l' & b & Hfa & Hb).
  exists (l ++ l'), b. split; [| exact Hb].
  rewrite Hm, bind_returned, Hfa. reflexivity.
Qed.

Lemma returns_with_ret {A} (P : A -> Prop) (a : A) :
  P a -> returns_with P (ret a).
Proof. intros Ha. exists [], a. now split. Qed.

Lemma returns_with_value {A} (P : A -> Prop) (m : Run A) :
  returns_with P m -> exists a, returned_value m = Some a /\ P a.
Proof. intros (l & a & Hm & Ha). exists a. rewrite Hm. now split. Qed.

Section Extrema.
Context {A : Type} (comp : A -> A -> Run bool) (dom : A -> Prop).
Hypothesis comp_returns :
  forall x y, dom x -> dom y -> returns_with (fun _ => True) (comp x y).

Lemma min_element_loop_returns (rest : list A) :
  forall smallest,
    dom smallest -> Forall dom rest ->
    returns_with dom (min_element_loop comp smallest rest).
Proof.
  induction rest as [| x rest IH]; intros smallest Hs Hrest.
  - now apply returns_with_ret.
  - inversion Hrest as [| ? ? Hx Hrest']; subst. simpl.
    apply returns_with_bind with (P := fun _ => True).
    + now apply comp_returns.
    + intros b _. apply IH; [now destruct b | exact Hrest'].
Qed.


Lemma deref_min_element_returns (l : list A) :
  l <> [] -> Forall dom l -> returns_with dom (deref_min_element l comp).
Proof.
  destruct l as [| x rest]; intros Hne Hl; [contradiction |].
  inversion Hl; subst. now apply min_element_loop_returns.
Qed.


End Extrema.

Section SetDistances.
Context {T : Type} `{ST : Scalar T} `{CT : Cmath T}.

Lemma inner_product_reads (op1 op2 : T -> T -> T) (seq1 : list T) :
  forall (seq2 : list T) (init : T),
    length seq1 <= length seq2 ->
    exists v, inner_product seq1 seq2 init op1 op2 = Some v.
Proof.
  induction seq1 as [| x seq1 IH]; intros seq2 init Hlen.
  - now exists init.
  - destruct seq2 as [| y seq2]; [simpl in Hlen; lia |].
    simpl. apply IH. simpl in Hlen. lia.
Qed.

(** On ranges of equal size [distance] returns, whatever the selector. *)
Lemma distance_returns (seq1 seq2 : list T) (metric : DistanceMetric) :
  length seq1 = length seq2 ->
  returns_with (fun _ => True) (distance seq1 seq2 metric).
Proof.
  intros Hlen. unfold distance.
  rewrite (distance_size_check_passes seq1 seq2 _ Hlen).
  destruct metric;
    try (match goal with
         | |- context [inner_product seq1 seq2 ?i ?o1 ?o2] =>
             destruct (inner_product_reads o1 o2 seq1 seq2 i) as [v Hv];
             [lia | rewrite Hv]
         end;
         eexists; eexists; split; [reflexivity | exact I]).
  eexists; eexists; split; [reflexivity | exact I].
Qed.

Lemma comp_point_distance_returns (n : nat) (metric : DistanceMetric)
    (ref x y : list T) :
  dimension n ref -> dimension n x -> dimension n y ->
  returns_with (fun _ => True) (comp_point_distance metric ref x y).
Proof.
  unfold dimension. intros Href Hx Hy. unfold comp_point_distance.
  apply returns_with_bind with (P := fun _ => True);
    [apply distance_returns; congruence |].
  intros dx _. apply returns_with_bind with (P := fun _ => True);
    [apply distance_returns; congruence |].
  intros dy _. now apply returns_with_ret.
Qed.

Lemma distance_to_point_infimum_returns (n : nat) (metric : DistanceMetric)
    (set : list (list T)) (point : list T) :
  set <> [] -> Forall (dimension n) set -> dimension n point ->
  returns_with (fun _ => True) (distance_to_point set point SDM_INFIMIM metric).
Proof.
  intros Hne Hset Hpoint. unfold distance_to_point.
  apply returns_with_bind with (P := dimension n).
  - apply deref_min_element_returns; try assumption.
    intros x y Hx Hy. now apply comp_point_distance_returns with (n := n).
  - intros tmp Htmp. apply distance_returns.
    unfold dimension in *. congruence.
Qed.


(** The order [<] on the elements: of two different elements one is less than
    the other, and never both ways. *)
Hypothesis less_asym : forall x y : T, less x y = true -> less y x = false.
Hypothesis less_total :
  forall x y : T, less x y = false -> less y x = false -> x = y.



End SetDistances.




(** * Further properties of the library *)

(** ** The value [distance] returns *)

Section InnerProduct.
Context {T : Type} `{ST : Scalar T}.

(** Over ranges of equal size [std::inner_product] is a fold from the left
    over the pairs of elements. *)
Lemma inner_product_fold (op1 op2 : T -> T -> T) (seq1 : list T) :
  forall (seq2 : list T) (init : T),
    length seq1 = length seq2 ->
    inner_product seq1 seq2 init op1 op2 =
      Some (fold_left (fun acc p => op1 acc (op2 (fst p) (snd p)))
                      (combine seq1 seq2) init).
Proof.
  induction seq1 as [| x seq1 IH]; intros [| y seq2] init Hlen;
    try discriminate Hlen.
  - reflexivity.
  - simpl in Hlen. simpl. apply IH. lia.
Qed.

End InnerProduct.

Section DistanceValues.
Open Scope R_scope.

Lemma fold_left_pair_sum (f : R -> R -> R) (l : list (R * R)) :
  forall init : R,
    fold_left (fun acc p => acc + f (fst p) (snd p)) l init =
    init + fold_right (fun p s => f (fst p) (snd p) + s) 0 l.
Proof.
  induction l as [| p l IH]; intros init; simpl.
  - lra.
  - rewrite IH. lra.
Qed.

Lemma inner_product_pair_sum (f : R -> R -> R) (a b : list R) :
  length a = length b ->
  inner_product a b 0 add f = Some (pair_sum f a b).
Proof.
  intros Hlen. rewrite inner_product_fold by assumption.
  f_equal. change (fun acc p => add acc (f (fst p) (snd p)))
    with (fun acc p => acc + f (fst p) (snd p)).
  rewrite fold_left_pair_sum. unfold pair_sum. lra.
Qed.

Lemma pair_sum_cons (f : R -> R -> R) (x y : R) (a b : list R) :
  pair_sum f (x :: a) (y :: b) = f x y + pair_sum f a b.
Proof. reflexivity. Qed.

Lemma pair_sum_sym (f : R -> R -> R) (a : list R) :
  (forall x y, f x y = f y x) ->
  forall b, pair_sum f a b = pair_sum f b a.
Proof.
  intros Hf. induction a as [| x a IH]; intros [| y b]; try reflexivity.
  rewrite !pair_sum_cons, IH, Hf. reflexivity.
Qed.

Lemma pair_sum_nonneg (f : R -> R -> R) (a : list R) :
  (forall x y, 0 <= f x y) ->
  forall b, 0 <= pair_sum f a b.
Proof.
  intros Hf. induction a as [| x a IH]; intros [| y b];
    try (unfold pair_sum; simpl; lra).
  rewrite pair_sum_cons. specialize (IH b). specialize (Hf x y). lra.
Qed.

Lemma pair_sum_diag (f : R -> R -> R) (a : list R) :
  (forall x, f x x = 0) -> pair_sum f a a = 0.
Proof.
  intros Hf. induction a as [| x a IH].
  - reflexivity.
  - rewrite pair_sum_cons, IH, Hf. lra.
Qed.

(** A sum of terms that are not negative and vanish only on equal elements
    is 0 only for equal ranges. *)
Lemma pair_sum_zero (f : R -> R -> R) (a : list R) :
  (forall x y, 0 <= f x y) -> (forall x y, f x y = 0 -> x = y) ->
  forall b, length a = length b -> pair_sum f a b = 0 -> a = b.
Proof.
  intros Hpos Hzero. induction a as [| x a IH]; intros [| y b] Hlen Hsum;
    try discriminate Hlen.
  - reflexivity.
  - rewrite pair_sum_cons in Hsum.
    pose proof (Hpos x y) as Hxy. pose proof (pair_sum_nonneg f a Hpos b) as Hab.
    simpl in Hlen. f_equal.
    + apply Hzero. lra.
    + apply IH; [lia | lra].
Qed.

Lemma distance_manhattan (a b : list R) :
  length a = length b ->
  distance a b DM_MANHATTAN = ([], Returned (pair_sum taxicab a b)).
Proof.
  intros Hlen. unfold distance.
  rewrite (distance_size_check_passes a b _ Hlen).
  rewrite inner_product_pair_sum by assumption. reflexivity.
Qed.

Lemma distance_euclidean (a b : list R) :
  length a = length b ->
  distance a b DM_EUCLIDEAN =
    ([], Returned (R_sqrt.sqrt (pair_sum euclidean a b))).
Proof.
  intros Hlen. unfold distance.
  rewrite (distance_size_check_passes a b _ Hlen).
  rewrite inner_product_pair_sum by assumption. reflexivity.
Qed.

Lemma distance_dotproduct (a b : list R) :
  length a = length b ->
  distance a b DM_DOTPRODUCT = ([], Returned (pair_sum Rmult a b)).
Proof.
  intros Hlen. unfold distance.
  rewrite (distance_size_check_passes a b _ Hlen).
  change (@mul R Scalar_R) with Rmult.
  rewrite inner_product_pair_sum by assumption. reflexivity.
Qed.

Lemma distance_hellinger (a b : list R) :
  length a = length b ->
  distance a b DM_HELLINGER =
    ([], Returned (R_sqrt.sqrt (pair_sum hellinger a b) / R_sqrt.sqrt 2)).
Proof.
  intros Hlen. unfold distance.
  rewrite (distance_size_check_passes a b _ Hlen).
  rewrite inner_product_pair_sum by assumption. reflexivity.
Qed.

Lemma coefficient_pair_sum (a b : list R) :
  coefficient a b = pair_sum battacharyya a b.
Proof.
  unfold coefficient.
  pose proof (fold_left_pair_sum (fun x y => R_sqrt.sqrt (x * y))
                (combine a b) 0) as H.
  cbv beta in H. rewrite H. unfold pair_sum.
  change (@battacharyya R Scalar_R Cmath_R)
    with (fun x y => R_sqrt.sqrt (x * y)). cbv beta. lra.
Qed.

Lemma taxicab_sym (x y : R) : taxicab x y = taxicab y x.
Proof. unfold taxicab. cbn [abs sub Scalar_R]. apply Rabs_minus_sym. Qed.

Lemma taxicab_nonneg (x y : R) : 0 <= taxicab x y.
Proof. unfold taxicab. cbn [abs sub Scalar_R]. apply Rabs_pos. Qed.

Lemma taxicab_zero (x y : R) : taxicab x y = 0 -> x = y.
Proof.
  unfold taxicab. cbn [abs sub Scalar_R]. intros H.
  destruct (Req_dec (x - y) 0) as [Hz | Hnz]; [lra |].
  now apply Rabs_no_R0 in Hnz.
Qed.

Lemma taxicab_triangle (x y z : R) :
  taxicab x z <= taxicab x y + taxicab y z.
Proof.
  unfold taxicab. cbn [abs sub Scalar_R].
  replace (x - z) with ((x - y) + (y - z)) by lra. apply Rabs_triang.
Qed.

Lemma pair_sum_triangle (a : list R) :
  forall b c, length a = length b -> length b = length c ->
  pair_sum taxicab a c <= pair_sum taxicab a b + pair_sum taxicab b c.
Proof.
  induction a as [| x a IH]; intros [| y b] [| z c] Hab Hbc;
    try discriminate Hab; try discriminate Hbc.
  - unfold pair_sum. simpl. lra.
  - rewrite !pair_sum_cons. simpl in Hab, Hbc.
    specialize (IH b c ltac:(lia) ltac:(lia)).
    pose proof (taxicab_triangle x y z). lra.
Qed.

(** X1: over the reals the Manhattan distance of [distance] is a metric on
    ranges of one size: the same in both directions, 0 exactly between a range
    and itself, and within the triangle inequality. *)
Theorem manhattan_is_a_metric (a b c : list R) :
  length a = length b -> length b = length c ->
  exists dab dbc dac,
    distance a b DM_MANHATTAN = ([], Returned dab) /\
    distance b c DM_MANHATTAN = ([], Returned dbc) /\
    distance a c DM_MANHATTAN = ([], Returned dac) /\
    distance b a DM_MANHATTAN = ([], Returned dab) /\
    (dab = 0 <-> a = b) /\
    dac <= dab + dbc.
Proof.
  intros Hab Hbc.
  exists (pair_sum taxicab a b), (pair_sum taxicab b c), (pair_sum taxicab a c).
  rewrite !distance_manhattan by congruence.
  rewrite (pair_sum_sym taxicab b taxicab_sym a).
  repeat split.
  - apply pair_sum_zero; [apply taxicab_nonneg | apply taxicab_zero | exact Hab].
  - intros <-. apply pair_sum_diag. intros x. unfold taxicab.
    cbn [abs sub Scalar_R]. rewrite Rminus_diag. apply Rabs_R0.
  - now apply pair_sum_triangle.
Qed.

Lemma euclidean_sym (x y : R) : euclidean x y = euclidean y x.
Proof. unfold euclidean. cbn [mul sub Scalar_R]. ring. Qed.

Lemma euclidean_nonneg (x y : R) : 0 <= euclidean x y.
Proof.
  unfold euclidean. cbn [mul sub Scalar_R].
  pose proof (Rle_0_sqr (x - y)) as H. unfold Rsqr in H. exact H.
Qed.

Lemma euclidean_zero (x y : R) : euclidean x y = 0 -> x = y.
Proof.
  unfold euclidean. cbn [mul sub Scalar_R]. intros H.
  apply Rmult_integral in H. lra.
Qed.

(** X2: over the reals the Euclidean distance of [distance] between ranges of
    one size is the same in both directions, is not negative, and is 0
    exactly between a range and itself. *)
Theorem euclidean_symmetric_and_definite (a b : list R) :
  length a = length b ->
  exists d,
    distance a b DM_EUCLIDEAN = ([], Returned d) /\
    distance b a DM_EUCLIDEAN = ([], Returned d) /\
    0 <= d /\
    (d = 0 <-> a = b).
Proof.
  intros Hab. exists (R_sqrt.sqrt (pair_sum euclidean a b)).
  rewrite !distance_euclidean by congruence.
  rewrite (pair_sum_sym euclidean b euclidean_sym a).
  repeat split.
  - apply sqrt_pos.
  - intros Hd. apply sqrt_eq_0 in Hd;
      [| apply pair_sum_nonneg, euclidean_nonneg].
    revert Hd. apply pair_sum_zero;
      [apply euclidean_nonneg | apply euclidean_zero | exact Hab].
  - intros <-. rewrite pair_sum_diag; [apply sqrt_0 |].
    intros x. unfold euclidean. cbn [mul sub Scalar_R]. ring.
Qed.

End DistanceValues.

(** X1, witness: the points (0, 0), (3, 4) and (3, 0). *)
Lemma manhattan_is_a_metric_witness :
  exists dab dbc dac : R,
    distance [0; 0]%R [3; 4]%R DM_MANHATTAN = ([], Returned dab) /\
    distance [3; 4]%R [3; 0]%R DM_MANHATTAN = ([], Returned dbc) /\
    distance [0; 0]%R [3; 0]%R DM_MANHATTAN = ([], Returned dac) /\
    distance [3; 4]%R [0; 0]%R DM_MANHATTAN = ([], Returned dab) /\
    (dab = 0%R <-> [0; 0]%R = [3; 4]%R) /\
    (dac <= dab + dbc)%R.
Proof.
  apply (manhattan_is_a_metric [0; 0]%R [3; 4]%R [3; 0]%R); reflexivity.
Defined.

(** X2, witness: the points (0, 0) and (3, 4). *)
Lemma euclidean_symmetric_and_definite_witness :
  exists d : R,
    distance [0; 0]%R [3; 4]%R DM_EUCLIDEAN = ([], Returned d) /\
    distance [3; 4]%R [0; 0]%R DM_EUCLIDEAN = ([], Returned d) /\
    (0 <= d)%R /\
    (d = 0%R <-> [0; 0]%R = [3; 4]%R).
Proof.
  apply (euclidean_symmetric_and_definite [0; 0]%R [3; 4]%R); reflexivity.
Defined.

Section Chebyshev.
Open Scope R_scope.

Lemma max_R (x y : R) : max x y = Rmax x y.
Proof.
  unfold max, Rmax. cbn [less Scalar_R].
  destruct (Rlt_dec x y), (Rle_dec x y); lra.
Qed.

Lemma fold_left_pointwise {A B} (f g : A -> B -> A) (l : list B) :
  (forall acc p, f acc p = g acc p) ->
  forall init, fold_left f l init = fold_left g l init.
Proof.
  intros Hfg. induction l as [| p l IH]; intros init; simpl.
  - reflexivity.
  - now rewrite Hfg, IH.
Qed.

Lemma fold_left_Rmax (g : R * R -> R) (l : list (R * R)) :
  forall init : R,
    0 <= init ->
    fold_left (fun acc p => Rmax acc (g p)) l init =
    Rmax init (fold_right (fun p s => Rmax (g p) s) 0 l).
Proof.
  induction l as [| p l IH]; intros init Hinit; simpl.
  - symmetry. apply Rmax_left. exact Hinit.
  - rewrite IH.
    + now rewrite Rmax_assoc.
    + apply Rle_trans with init; [exact Hinit | apply Rmax_l].
Qed.

Lemma largest_gap_cons (x y : R) (a b : list R) :
  largest_gap (x :: a) (y :: b) = Rmax (Rabs (x - y)) (largest_gap a b).
Proof. reflexivity. Qed.

Lemma largest_gap_nonneg (a : list R) : forall b, 0 <= largest_gap a b.
Proof.
  induction a as [| x a IH]; intros [| y b];
    try (unfold largest_gap; simpl; lra).
  rewrite largest_gap_cons.
  apply Rle_trans with (Rabs (x - y)); [apply Rabs_pos | apply Rmax_l].
Qed.

Lemma distance_chebyshev (a b : list R) :
  length a = length b ->
  distance a b DM_CHEBYSHEV = ([], Returned (largest_gap a b)).
Proof.
  intros Hlen. unfold distance.
  rewrite (distance_size_check_passes a b _ Hlen).
  rewrite inner_product_fold by assumption.
  rewrite (fold_left_pointwise _
             (fun (acc : R) (p : R * R) => Rmax acc (Rabs (fst p - snd p))))
    by (intros acc p; apply max_R).
  rewrite fold_left_Rmax by (cbn [of_int Scalar_R]; lra).
  cbn [in_range]. fold (largest_gap a b).
  cbn [of_int Scalar_R]. rewrite Rmax_right by apply largest_gap_nonneg.
  reflexivity.
Qed.

Lemma largest_gap_bounds (a : list R) :
  forall b i x y,
    nth_error a i = Some x -> nth_error b i = Some y ->
    Rabs (x - y) <= largest_gap a b.
Proof.
  induction a as [| x0 a IH]; intros [| y0 b] [| i] x y Hx Hy;
    try discriminate Hx; try discriminate Hy; rewrite largest_gap_cons.
  - simpl in Hx, Hy. inversion Hx; inversion Hy; subst. apply Rmax_l.
  - simpl in Hx, Hy.
    apply Rle_trans with (largest_gap a b); [now apply IH with i | apply Rmax_r].
Qed.

Lemma largest_gap_attained (a : list R) :
  forall b, length a = length b ->
    a = [] \/
    exists i x y,
      nth_error a i = Some x /\ nth_error b i = Some y /\
      largest_gap a b = Rabs (x - y).
Proof.
  induction a as [| x0 a IH]; intros [| y0 b] Hlen; try discriminate Hlen.
  - now left.
  - right. rewrite largest_gap_cons. simpl in Hlen.
    destruct (Rle_dec (largest_gap a b) (Rabs (x0 - y0))) as [Hle | Hgt].
    + exists 0%nat, x0, y0. repeat split. now apply Rmax_left.
    + destruct (IH b ltac:(lia)) as [Hnil | (i & x & y & Hx & Hy & Hgap)].
      * subst a. destruct b; [| discriminate Hlen].
        exfalso. apply Hgt. unfold largest_gap. simpl. apply Rabs_pos.
      * exists (S i), x, y. repeat split; try assumption.
        rewrite Rmax_right by lra. exact Hgap.
Qed.

Lemma largest_gap_le_sum (a : list R) :
  forall b, largest_gap a b <= pair_sum taxicab a b.
Proof.
  induction a as [| x a IH]; intros [| y b];
    try (unfold largest_gap, pair_sum; simpl; lra).
  rewrite largest_gap_cons, pair_sum_cons.
  pose proof (taxicab_nonneg x y) as Hxy.
  pose proof (pair_sum_nonneg taxicab a taxicab_nonneg b) as Hab.
  specialize (IH b).
  change (taxicab x y) with (Rabs (x - y)) in *.
  apply Rmax_lub; lra.
Qed.

(** X3: over the reals the Chebyshev distance of [distance] between ranges of
    one size is the largest [|a[i] - b[i]|]: it bounds every one of them, it
    is one of them unless the ranges are empty, and it is at most the
    Manhattan distance. *)
Theorem chebyshev_is_largest_gap (a b : list R) :
  length a = length b ->
  exists c m,
    distance a b DM_CHEBYSHEV = ([], Returned c) /\
    distance a b DM_MANHATTAN = ([], Returned m) /\
    (forall i x y,
       nth_error a i = Some x -> nth_error b i = Some y ->
       Rabs (x - y) <= c) /\
    (a = [] /\ c = 0 \/
     exists i x y,
       nth_error a i = Some x /\ nth_error b i = Some y /\ c = Rabs (x - y)) /\
    0 <= c <= m.
Proof.
  intros Hlen. exists (largest_gap a b), (pair_sum taxicab a b).
  rewrite distance_chebyshev, distance_manhattan by assumption.
  repeat split.
  - apply largest_gap_bounds.
  - destruct (largest_gap_attained a b Hlen) as [Hnil | Hex].
    + left. subst a. now split.
    + now right.
  - apply largest_gap_nonneg.
  - apply largest_gap_le_sum.
Qed.

End Chebyshev.

(** X3, witness: the points (0, 0) and (3, 4). *)
Lemma chebyshev_is_largest_gap_witness :
  exists c m : R,
    distance [0; 0]%R [3; 4]%R DM_CHEBYSHEV = ([], Returned c) /\
    distance [0; 0]%R [3; 4]%R DM_MANHATTAN = ([], Returned m) /\
    (forall i x y,
       nth_error [0; 0]%R i = Some x -> nth_error [3; 4]%R i = Some y ->
       (Rabs (x - y) <= c)%R) /\
    ([0; 0]%R = [] /\ c = 0%R \/
     exists i x y,
       nth_error [0; 0]%R i = Some x /\ nth_error [3; 4]%R i = Some y /\
       c = Rabs (x - y)) /\
    (0 <= c <= m)%R.
Proof.
  apply (chebyshev_is_largest_gap [0; 0]%R [3; 4]%R). reflexivity.
Defined.

Section HistogramIdentities.
Open Scope R_scope.

Lemma pair_sum_hellinger (a : list R) :
  forall b, length a = length b ->
    Forall (fun x => 0 <= x) a -> Forall (fun x => 0 <= x) b ->
    pair_sum hellinger a b =
    bin_sum a + bin_sum b - 2 * pair_sum battacharyya a b.
Proof.
  induction a as [| x a IH]; intros [| y b] Hlen Ha Hb; try discriminate Hlen.
  - unfold pair_sum, bin_sum. simpl. lra.
  - inversion Ha as [| ? ? Hx Ha']; inversion Hb as [| ? ? Hy Hb']; subst.
    rewrite !pair_sum_cons. simpl in Hlen.
    rewrite (IH b) by (try assumption; lia).
    unfold bin_sum. simpl. fold (bin_sum a). fold (bin_sum b).
    unfold hellinger, battacharyya. cbn [mul sub sqrt Scalar_R Cmath_R].
    rewrite sqrt_mult by assumption.
    pose proof (sqrt_sqrt x Hx) as Hxx. pose proof (sqrt_sqrt y Hy) as Hyy.
    set (u := R_sqrt.sqrt x) in *. set (v := R_sqrt.sqrt y) in *. nra.
Qed.

(** X4: over the reals, on normalized histograms of one length [distance]
    returns the same value for DM_HELLINGER and for DM_SQUARED_HELLINGER, the
    square root of 1 minus the Bhattacharyya coefficient, a value between 0
    and 1. *)
Theorem hellinger_equals_squared_hellinger (a b : list R) :
  normalized a -> normalized b -> length a = length b ->
  distance a b DM_HELLINGER = distance a b DM_SQUARED_HELLINGER /\
  distance a b DM_HELLINGER =
    ([], Returned (R_sqrt.sqrt (1 - coefficient a b))) /\
  0 <= R_sqrt.sqrt (1 - coefficient a b) <= 1.
Proof.
  intros [Ha Hsa] [Hb Hsb] Hlen.
  pose proof (coefficient_fold_bounds a b 0 Hlen Ha Hb) as Hc.
  fold (coefficient a b) in Hc. rewrite Hsa, Hsb in Hc.
  assert (Hh : distance a b DM_HELLINGER =
               ([], Returned (R_sqrt.sqrt (1 - coefficient a b)))).
  { rewrite distance_hellinger by assumption.
    rewrite pair_sum_hellinger by assumption.
    rewrite Hsa, Hsb, <- coefficient_pair_sum.
    rewrite <- sqrt_div by lra.
    do 3 f_equal. lra. }
  split; [| split].
  - rewrite Hh. symmetry. now apply distance_squared_hellinger.
  - exact Hh.
  - split; [apply sqrt_pos |].
    rewrite <- sqrt_1 at 2. apply sqrt_le_1_alt. lra.
Qed.

Lemma coefficient_diag (a : list R) :
  Forall (fun x => 0 <= x) a -> coefficient a a = bin_sum a.
Proof.
  intros Ha. rewrite coefficient_pair_sum.
  induction Ha as [| x a Hx Ha IH].
  - reflexivity.
  - rewrite pair_sum_cons, IH. unfold bin_sum. simpl.
    unfold battacharyya. cbn [mul sqrt Scalar_R Cmath_R].
    now rewrite sqrt_square.
Qed.

(** X5: over the reals, between a normalized histogram and itself [distance]
    returns the coefficient 1 for DM_BHATTACHARYYA_COEFFICIENT and the
    distance 0 for DM_BHATTACHARYYA, DM_HELLINGER and DM_SQUARED_HELLINGER. *)
Theorem histogram_distance_to_itself (a : list R) :
  normalized a ->
  distance a a DM_BHATTACHARYYA_COEFFICIENT = ([], Returned 1) /\
  distance a a DM_BHATTACHARYYA = ([], Returned 0) /\
  distance a a DM_HELLINGER = ([], Returned 0) /\
  distance a a DM_SQUARED_HELLINGER = ([], Returned 0).
Proof.
  intros Hn. pose proof Hn as [Ha Hsa].
  assert (Hc : coefficient a a = 1) by (now rewrite coefficient_diag).
  assert (Hroot : R_sqrt.sqrt (1 - coefficient a a) = 0).
  { rewrite Hc, Rminus_diag. apply sqrt_0. }
  split; [| split; [| split]].
  - now rewrite distance_coefficient, Hc.
  - unfold distance.
    rewrite (distance_size_check_passes a a _ eq_refl).
    rewrite inner_product_pair_sum by reflexivity.
    rewrite <- coefficient_pair_sum, Hc. cbn [in_range bind ret app].
    cbn [opp log Scalar_R Cmath_R]. rewrite ln_1, Ropp_0. reflexivity.
  - destruct (hellinger_equals_squared_hellinger a a Hn Hn eq_refl)
      as (_ & Hh & _).
    now rewrite Hh, Hroot.
  - now rewrite distance_squared_hellinger, Hroot.
Qed.

End HistogramIdentities.

(** X4, witness: the histograms [[1; 0]] and [[0; 1]]. *)
Lemma hellinger_equals_squared_hellinger_witness :
  distance [1; 0]%R [0; 1]%R DM_HELLINGER =
    distance [1; 0]%R [0; 1]%R DM_SQUARED_HELLINGER /\
  distance [1; 0]%R [0; 1]%R DM_HELLINGER =
    ([], Returned (R_sqrt.sqrt (1 - coefficient [1; 0]%R [0; 1]%R))) /\
  (0 <= R_sqrt.sqrt (1 - coefficient [1; 0]%R [0; 1]%R) <= 1)%R.
Proof.
  apply (hellinger_equals_squared_hellinger [1; 0]%R [0; 1]%R);
    [exact normalized_1_0 | exact normalized_0_1 | reflexivity].
Defined.

(** X5, witness: the histogram [[1; 0]]. *)
Lemma histogram_distance_to_itself_witness :
  distance [1; 0]%R [1; 0]%R DM_BHATTACHARYYA_COEFFICIENT = ([], Returned 1%R) /\
  distance [1; 0]%R [1; 0]%R DM_BHATTACHARYYA = ([], Returned 0%R) /\
  distance [1; 0]%R [1; 0]%R DM_HELLINGER = ([], Returned 0%R) /\
  distance [1; 0]%R [1; 0]%R DM_SQUARED_HELLINGER = ([], Returned 0%R).
Proof.
  apply (histogram_distance_to_itself [1; 0]%R). exact normalized_1_0.
Defined.

(** ** What moving does to the distance, and what it reads *)

Section MovingDistance.
Open Scope R_scope.

Lemma less_R_true (x y : R) : x < y -> less x y = true.
Proof. intros H. cbn [less Scalar_R]. destruct (Rlt_dec x y); [reflexivity | lra]. Qed.

Lemma less_eq_R_true (x y : R) : x <= y -> less_eq x y = true.
Proof. intros H. cbn [less_eq Scalar_R]. destruct (Rle_dec x y); [reflexivity | lra]. Qed.

(** Each gap to the reference is scaled by [|1 + step|]. *)
Lemma transform_scales_gaps (step : R) (target : list R) :
  forall ref moved,
    transform (op_adjust step) target ref = Some moved ->
    length target = length ref ->
    length moved = length ref /\
    pair_sum taxicab moved ref = Rabs (1 + step) * pair_sum taxicab target ref /\
    pair_sum euclidean moved ref =
      (1 + step) * (1 + step) * pair_sum euclidean target ref.
Proof.
  induction target as [| x target IH]; intros [| y ref] moved Hrun Hlen;
    try discriminate Hlen.
  - inversion Hrun; subst. unfold pair_sum. simpl. repeat split; lra.
  - simpl in Hrun, Hlen.
    destruct (transform (op_adjust step) target ref) as [moved' |] eqn:Hrest;
      [| discriminate Hrun].
    inversion Hrun; subst.
    destruct (IH ref moved' Hrest ltac:(lia)) as (Hl & Hm & He).
    rewrite !pair_sum_cons, Hm, He. repeat split.
    + simpl. now rewrite Hl.
    + unfold taxicab, op_adjust. cbn [abs add sub mul Scalar_R].
      replace (x + (x - y) * step - y) with ((1 + step) * (x - y)) by ring.
      rewrite Rabs_mult. ring.
    + unfold euclidean, op_adjust. cbn [add sub mul Scalar_R]. ring.
Qed.

(** X6: over the reals, for a target and a reference of one length and
    [0 < mu <= 1], [decreaseDistance] multiplies the Manhattan and the
    Euclidean distance of the target to the reference by [1 - mu], and
    [increaseDistance] multiplies them by [1 + mu]. *)
Theorem moving_scales_the_distance (target ref : list R) (mu : R) :
  0 < mu <= 1 -> length target = length ref ->
  exists toward away dm de,
    decreaseDistance (mkRanges target ref) mu =
      ([], Returned (mkRanges toward ref)) /\
    increaseDistance (mkRanges target ref) mu =
      ([], Returned (mkRanges away ref)) /\
    distance target ref DM_MANHATTAN = ([], Returned dm) /\
    distance target ref DM_EUCLIDEAN = ([], Returned de) /\
    distance toward ref DM_MANHATTAN = ([], Returned ((1 - mu) * dm)) /\
    distance toward ref DM_EUCLIDEAN = ([], Returned ((1 - mu) * de)) /\
    distance away ref DM_MANHATTAN = ([], Returned ((1 + mu) * dm)) /\
    distance away ref DM_EUCLIDEAN = ([], Returned ((1 + mu) * de)).
Proof.
  intros [Hpos Hle] Hlen.
  destruct (transform_elementwise (op_adjust (opp mu)) target ref)
    as (toward & Ht & _); [lia |].
  destruct (transform_elementwise (op_adjust mu) target ref)
    as (away & Ha & _); [lia |].
  destruct (transform_scales_gaps (opp mu) target ref toward Ht Hlen)
    as (Hlt & Hmt & Het).
  destruct (transform_scales_gaps mu target ref away Ha Hlen)
    as (Hla & Hma & Hea).
  exists toward, away, (pair_sum taxicab target ref),
    (R_sqrt.sqrt (pair_sum euclidean target ref)).
  unfold decreaseDistance, increaseDistance.
  change (@of_int R Scalar_R 0%Z) with 0.
  change (@of_int R Scalar_R 1%Z) with 1.
  rewrite (less_R_true _ _ Hpos), (less_eq_R_true _ _ Hle).
  cbn [cassert]. rewrite !bind_ret_l. cbn [tomove reference].
  rewrite Ht, Ha. cbn [in_range]. rewrite !bind_ret_l.
  rewrite !distance_manhattan, !distance_euclidean by congruence.
  rewrite Hmt, Het, Hma, Hea. cbn [opp Scalar_R].
  assert (Hroot : forall k s, 0 <= k -> 0 <= s ->
            R_sqrt.sqrt (k * k * s) = k * R_sqrt.sqrt s).
  { intros k s Hk Hs. rewrite sqrt_mult by nra. now rewrite sqrt_square. }
  pose proof (pair_sum_nonneg euclidean target euclidean_nonneg ref) as Hs.
  replace (1 + - mu) with (1 - mu) by lra.
  rewrite !Hroot by lra.
  rewrite (Rabs_right (1 - mu)) by lra.
  rewrite (Rabs_right (1 + mu)) by lra.
  repeat split; reflexivity.
Qed.

End MovingDistance.

(** X6, witness: target (10, 20), reference (4, 8), [mu = 1/2]. *)
Lemma moving_scales_the_distance_witness :
  exists toward away dm de : _,
    decreaseDistance (mkRanges [10; 20] [4; 8])%R (1 / 2)%R =
      ([], Returned (mkRanges toward [4; 8]%R)) /\
    increaseDistance (mkRanges [10; 20] [4; 8])%R (1 / 2)%R =
      ([], Returned (mkRanges away [4; 8]%R)) /\
    distance [10; 20]%R [4; 8]%R DM_MANHATTAN = ([], Returned dm) /\
    distance [10; 20]%R [4; 8]%R DM_EUCLIDEAN = ([], Returned de) /\
    distance toward [4; 8]%R DM_MANHATTAN =
      ([], Returned ((1 - 1 / 2) * dm)%R) /\
    distance toward [4; 8]%R DM_EUCLIDEAN =
      ([], Returned ((1 - 1 / 2) * de)%R) /\
    distance away [4; 8]%R DM_MANHATTAN =
      ([], Returned ((1 + 1 / 2) * dm)%R) /\
    distance away [4; 8]%R DM_EUCLIDEAN =
      ([], Returned ((1 + 1 / 2) * de)%R).
Proof.
  apply (moving_scales_the_distance [10; 20]%R [4; 8]%R (1 / 2)%R).
  - lra.
  - reflexivity.
Defined.

Section MovingRanges.
Context {T : Type} `{ST : Scalar T}.

Lemma transform_ignores_tail (op : T -> T -> T) (seq1 : list T) :
  forall seq2 extra,
    length seq1 = length seq2 ->
    transform op seq1 (seq2 ++ extra) = transform op seq1 seq2.
Proof.
  induction seq1 as [| x seq1 IH]; intros [| y seq2] extra Hlen;
    try discriminate Hlen.
  - reflexivity.
  - simpl in Hlen. simpl. now rewrite IH by lia.
Qed.

(** X7: neither [increaseDistance] nor [decreaseDistance] compares the sizes
    of its ranges.  With a valid [mu], elements of the reference beyond the
    length of the target are not read: the target is moved as with the
    reference cut to its length, and the whole reference is left as it was. *)
Theorem moving_ignores_reference_tail (target ref extra : list T) (mu : T) :
  less (of_int 0) mu = true -> less_eq mu (of_int 1) = true ->
  length target = length ref ->
  exists toward away,
    decreaseDistance (mkRanges target ref) mu =
      ([], Returned (mkRanges toward ref)) /\
    decreaseDistance (mkRanges target (ref ++ extra)) mu =
      ([], Returned (mkRanges toward (ref ++ extra))) /\
    increaseDistance (mkRanges target ref) mu =
      ([], Returned (mkRanges away ref)) /\
    increaseDistance (mkRanges target (ref ++ extra)) mu =
      ([], Returned (mkRanges away (ref ++ extra))).
Proof.
  intros Hpos Hle Hlen.
  destruct (transform_elementwise (op_adjust (opp mu)) target ref)
    as (toward & Ht & _); [lia |].
  destruct (transform_elementwise (op_adjust mu) target ref)
    as (away & Ha & _); [lia |].
  exists toward, away. unfold decreaseDistance, increaseDistance.
  rewrite Hpos, Hle. cbn [cassert]. rewrite !bind_ret_l. cbn [tomove reference].
  rewrite !transform_ignores_tail by assumption.
  rewrite Ht, Ha. repeat split; reflexivity.
Qed.

(** X8: with a valid [mu] and a reference shorter than the target, both
    functions read past the end of the reference; with [mu] outside (0, 1]
    the assertion stops them first, whatever the sizes. *)
Theorem moving_reads_past_short_reference (target ref : list T) (mu : T) :
  length ref < length target ->
  (less (of_int 0) mu = true -> less_eq mu (of_int 1) = true ->
   decreaseDistance (mkRanges target ref) mu = ([], Undefined) /\
   increaseDistance (mkRanges target ref) mu = ([], Undefined)) /\
  (less (of_int 0) mu = false \/ less_eq mu (of_int 1) = false ->
   decreaseDistance (mkRanges target ref) mu = ([], AssertFailed) /\
   increaseDistance (mkRanges target ref) mu = ([], AssertFailed)).
Proof.
  intros Hlen. split.
  - intros Hpos Hle. unfold decreaseDistance, increaseDistance.
    rewrite Hpos, Hle. cbn [cassert]. rewrite !bind_ret_l.
    cbn [tomove reference].
    rewrite !transform_short_reference by assumption. split; reflexivity.
  - intros Hout. unfold decreaseDistance, increaseDistance.
    destruct (less (of_int 0) mu); [| split; reflexivity].
    destruct Hout as [Hout | Hout]; [discriminate Hout |].
    rewrite Hout. split; reflexivity.
Qed.

End MovingRanges.

(** X7, witness: integers, target [[10; 20]], reference [[4; 8]] followed by
    [[7]], [mu = 1]. *)
Lemma moving_ignores_reference_tail_witness :
  exists toward away,
    decreaseDistance (mkRanges [10; 20] [4; 8])%Z 1%Z =
      ([], Returned (mkRanges toward [4; 8]%Z)) /\
    decreaseDistance (mkRanges [10; 20] ([4; 8] ++ [7]))%Z 1%Z =
      ([], Returned (mkRanges toward ([4; 8] ++ [7])%Z)) /\
    increaseDistance (mkRanges [10; 20] [4; 8])%Z 1%Z =
      ([], Returned (mkRanges away [4; 8]%Z)) /\
    increaseDistance (mkRanges [10; 20] ([4; 8] ++ [7]))%Z 1%Z =
      ([], Returned (mkRanges away ([4; 8] ++ [7])%Z)).
Proof.
  apply (@moving_ignores_reference_tail Z Scalar_Z [10; 20]%Z [4; 8]%Z [7]%Z 1%Z);
    reflexivity.
Defined.

(** X8, witness: integers, target [[10; 20]], reference [[4]], [mu = 1]. *)
Lemma moving_reads_past_short_reference_witness :
  decreaseDistance (mkRanges [10; 20] [4])%Z 1%Z = ([], Undefined) /\
  increaseDistance (mkRanges [10; 20] [4])%Z 1%Z = ([], Undefined).
Proof.
  apply (proj1 (@moving_reads_past_short_reference Z Scalar_Z
                  [10; 20]%Z [4]%Z 1%Z ltac:(simpl; lia))); reflexivity.
Defined.

(** ** integral and cauchy_product *)

Section RunningSums.
Context {T : Type} `{ST : Scalar T}.

Lemma integral_loop_prefix (seq1 : list T) :
  forall seq2 value out k,
    integral_loop value seq1 seq2 = Some out ->
    integral_loop value (firstn k seq1) (firstn k seq2) = Some (firstn k out).
Proof.
  induction seq1 as [| x seq1 IH]; intros seq2 value out k Hrun.
  - inversion Hrun; subst. now rewrite !firstn_nil.
  - destruct seq2 as [| y seq2]; [discriminate Hrun |].
    simpl in Hrun.
    destruct (integral_loop (add value (mul x y)) seq1 seq2) as [rest |] eqn:Hrest;
      [| discriminate Hrun].
    inversion Hrun; subst. destruct k as [| k]; [reflexivity |].
    simpl. now rewrite (IH seq2 _ rest k Hrest).
Qed.

Lemma integral_loop_ignores_tail (seq1 : list T) :
  forall seq2 extra value,
    length seq1 = length seq2 ->
    integral_loop value seq1 (seq2 ++ extra) = integral_loop value seq1 seq2.
Proof.
  induction seq1 as [| x seq1 IH]; intros [| y seq2] extra value Hlen;
    try discriminate Hlen.
  - reflexivity.
  - simpl in Hlen. simpl. now rewrite IH by lia.
Qed.

Lemma integral_loop_short (seq1 : list T) :
  forall seq2 value,
    length seq2 < length seq1 -> integral_loop value seq1 seq2 = None.
Proof.
  induction seq1 as [| x seq1 IH]; intros [| y seq2] value Hlen;
    simpl in *; try lia; try reflexivity.
  now rewrite IH by lia.
Qed.

(** X9: [integral] works in one pass from the front.  For ranges of equal
    length, what it writes for the first [k] elements of both is the first
    [k] values it writes for the whole ranges, and elements of the second
    range beyond the length of the first are not read. *)
Theorem integral_is_causal (seq1 seq2 : list T) :
  length seq1 = length seq2 ->
  exists out,
    integral seq1 seq2 = ([], Returned out) /\
    (forall k,
       integral (firstn k seq1) (firstn k seq2) = ([], Returned (firstn k out))) /\
    (forall extra, integral seq1 (seq2 ++ extra) = ([], Returned out)).
Proof.
  intros Hlen.
  destruct (integral_sums seq1 seq2 Hlen) as (out & Hrun & _).
  exists out. split; [exact Hrun |].
  destruct seq1 as [| x seq1], seq2 as [| y seq2]; try discriminate Hlen.
  - inversion Hrun; subst. split.
    + intros k. now rewrite !firstn_nil.
    + reflexivity.
  - unfold integral in Hrun.
    destruct (integral_loop (mul x y) seq1 seq2) as [rest |] eqn:Hrest;
      [| discriminate Hrun].
    cbn in Hrun. inversion Hrun; subst. split.
    + intros [| k]; [reflexivity |]. simpl firstn. unfold integral.
      now rewrite (integral_loop_prefix seq1 seq2 _ rest k Hrest).
    + intros extra. simpl app. unfold integral.
      rewrite integral_loop_ignores_tail by (simpl in Hlen; lia).
      now rewrite Hrest.
Qed.

(** X10: when the second range is shorter than the first, [integral] reads
    past its end. *)
Theorem integral_reads_past_short_range (seq1 seq2 : list T) :
  length seq2 < length seq1 ->
  integral seq1 seq2 = ([], Undefined).
Proof.
  intros Hlen. destruct seq1 as [| x seq1]; [simpl in Hlen; lia |].
  destruct seq2 as [| y seq2]; [reflexivity |].
  unfold integral. rewrite integral_loop_short by (simpl in Hlen; lia).
  reflexivity.
Qed.

Lemma cauchy_product_loop_is_integral_loop (seq1 : list T) :
  forall back2 value,
    cauchy_product_loop value seq1 back2 = integral_loop value seq1 back2.
Proof.
  induction seq1 as [| x seq1 IH]; intros [| y back2] value; reflexivity.
Qed.

Lemma cauchy_product_is_integral (seq1 seq2 : list T) :
  cauchy_product seq1 seq2 = integral seq1 (rev seq2).
Proof.
  unfold cauchy_product, integral. destruct seq1 as [| x seq1]; [reflexivity |].
  destruct (rev seq2) as [| y back2]; [reflexivity |].
  now rewrite cauchy_product_loop_is_integral_loop.
Qed.

Lemma dot_sum_rev (seq1 seq2 : list T) (k : nat) :
  k < length seq2 ->
  dot_sum seq1 (rev seq2) k = reversed_sum seq1 seq2 k.
Proof.
  induction k as [| k IH]; intros Hk.
  - simpl. unfold term, reversed_term. now rewrite rev_nth by exact Hk.
  - simpl. rewrite IH by lia. unfold term, reversed_term.
    now rewrite rev_nth by exact Hk.
Qed.

(** X11: [cauchy_product] is [integral] run against the second range read
    backwards: for ranges of equal length [n] the value of index [k] is the
    sum of [seq1[i] * seq2[n - 1 - i]] for [i] from 0 to [k]. *)
Theorem cauchy_product_reversed_sums (seq1 seq2 : list T) :
  length seq1 = length seq2 ->
  cauchy_product seq1 seq2 = integral seq1 (rev seq2) /\
  exists out,
    cauchy_product seq1 seq2 = ([], Returned out) /\
    length out = length seq1 /\
    forall k, k < length seq1 ->
      nth_error out k = Some (reversed_sum seq1 seq2 k).
Proof.
  intros Hlen. split; [apply cauchy_product_is_integral |].
  rewrite cauchy_product_is_integral.
  destruct (integral_sums seq1 (rev seq2)) as (out & Hrun & Hlenout & Hnth).
  { now rewrite length_rev. }
  exists out. repeat split; try assumption.
  intros k Hk. rewrite Hnth by exact Hk. f_equal. apply dot_sum_rev. lia.
Qed.

Lemma last_cons_default {A} (l : list A) :
  forall a d, last (a :: l) d = last l a.
Proof.
  induction l as [| t l IH]; intros a d.
  - reflexivity.
  - change (last (a :: t :: l) d) with (last (t :: l) d).
    now rewrite !IH.
Qed.

(** The sum [std::inner_product] returns is the last value the loop of
    [integral] writes. *)
Lemma integral_loop_last (seq1 : list T) :
  forall seq2 value out,
    integral_loop value seq1 seq2 = Some out ->
    inner_product seq1 seq2 value add mul = Some (last out value).
Proof.
  induction seq1 as [| x seq1 IH]; intros seq2 value out Hrun.
  - inversion Hrun; subst. reflexivity.
  - destruct seq2 as [| y seq2]; [discriminate Hrun |].
    simpl in Hrun.
    destruct (integral_loop (add value (mul x y)) seq1 seq2) as [rest |] eqn:Hrest;
      [| discriminate Hrun].
    inversion Hrun; subst. simpl inner_product.
    rewrite (IH seq2 _ rest Hrest). f_equal.
    symmetry. apply last_cons_default.
Qed.

Lemma reverse_inner_product_loop_is_inner_product (seq1 : list T) :
  forall back2 init,
    reverse_inner_product_loop seq1 back2 init =
    inner_product seq1 back2 init add mul.
Proof.
  induction seq1 as [| x seq1 IH]; intros [| y back2] init; try reflexivity.
  simpl. apply IH.
Qed.

Hypothesis add_0_l : forall x : T, add (of_int 0) x = x.

Lemma integral_last (seq1 seq2 out : list T) :
  seq1 <> [] ->
  integral seq1 seq2 = ([], Returned out) ->
  inner_product seq1 seq2 (of_int 0) add mul = Some (last out (of_int 0)).
Proof.
  intros Hne Hrun. destruct seq1 as [| x seq1]; [contradiction |].
  destruct seq2 as [| y seq2]; [discriminate Hrun |].
  unfold integral in Hrun.
  destruct (integral_loop (mul x y) seq1 seq2) as [rest |] eqn:Hrest;
    [| discriminate Hrun].
  cbn in Hrun. inversion Hrun; subst.
  simpl inner_product. rewrite add_0_l.
  rewrite (integral_loop_last seq1 seq2 _ rest Hrest). f_equal.
  symmetry. apply last_cons_default.
Qed.

(** X12: where 0 is neutral for [+], the last value [integral] writes for two
    non-empty ranges of equal length is their dot product, the value
    [distance] returns for DM_DOTPRODUCT; the last value [cauchy_product]
    writes is [reverse_inner_product] of the two ranges from 0. *)
Theorem last_running_sum_is_the_product `{CT : Cmath T} (seq1 seq2 : list T) :
  seq1 <> [] -> length seq1 = length seq2 ->
  exists out cout,
    integral seq1 seq2 = ([], Returned out) /\
    distance seq1 seq2 DM_DOTPRODUCT = ([], Returned (last out (of_int 0))) /\
    cauchy_product seq1 seq2 = ([], Returned cout) /\
    reverse_inner_product seq1 seq2 (of_int 0) = Some (last cout (of_int 0)).
Proof.
  intros Hne Hlen.
  destruct (integral_sums seq1 seq2 Hlen) as (out & Hrun & _).
  destruct (integral_sums seq1 (rev seq2)) as (cout & Hcrun & _).
  { now rewrite length_rev. }
  exists out, cout. repeat split.
  - exact Hrun.
  - unfold distance. rewrite (distance_size_check_passes seq1 seq2 _ Hlen).
    now rewrite (integral_last seq1 seq2 out Hne Hrun).
  - now rewrite cauchy_product_is_integral.
  - unfold reverse_inner_product.
    rewrite reverse_inner_product_loop_is_inner_product.
    now apply integral_last.
Qed.

End RunningSums.

(** X9, witness: the integer ranges [[1; 2; 3]] and [[1; 1; 1]]. *)
Lemma integral_is_causal_witness :
  exists out,
    integral [1; 2; 3]%Z [1; 1; 1]%Z = ([], Returned out) /\
    (forall k,
       integral (firstn k [1; 2; 3]%Z) (firstn k [1; 1; 1]%Z) =
         ([], Returned (firstn k out))) /\
    (forall extra,
       integral [1; 2; 3]%Z ([1; 1; 1]%Z ++ extra) = ([], Returned out)).
Proof.
  apply (@integral_is_causal Z Scalar_Z [1; 2; 3]%Z [1; 1; 1]%Z). reflexivity.
Defined.

(** X10, witness: [[1; 2; 3]] against [[1; 1]]. *)
Lemma integral_reads_past_short_range_witness :
  integral [1; 2; 3]%Z [1; 1]%Z = ([], Undefined).
Proof.
  apply (@integral_reads_past_short_range Z Scalar_Z [1; 2; 3]%Z [1; 1]%Z).
  simpl. lia.
Defined.

(** X11, witness: [[1; 2]] and [[3; 4]]; the values written are 4 and 10. *)
Lemma cauchy_product_reversed_sums_witness :
  cauchy_product [1; 2]%Z [3; 4]%Z = integral [1; 2]%Z (rev [3; 4]%Z) /\
  exists out,
    cauchy_product [1; 2]%Z [3; 4]%Z = ([], Returned out) /\
    length out = 2 /\
    forall k, k < 2 ->
      nth_error out k = Some (reversed_sum [1; 2]%Z [3; 4]%Z k).
Proof.
  apply (@cauchy_product_reversed_sums Z Scalar_Z [1; 2]%Z [3; 4]%Z).
  reflexivity.
Defined.

(** X12, witness: the real ranges [[1; 2]] and [[3; 4]]. *)
Lemma last_running_sum_is_the_product_witness :
  exists out cout : list R,
    integral [1; 2]%R [3; 4]%R = ([], Returned out) /\
    distance [1; 2]%R [3; 4]%R DM_DOTPRODUCT =
      ([], Returned (last out (IZR 0))) /\
    cauchy_product [1; 2]%R [3; 4]%R = ([], Returned cout) /\
    reverse_inner_product [1; 2]%R [3; 4]%R (IZR 0) = Some (last cout (IZR 0)).
Proof.
  apply (@last_running_sum_is_the_product R Scalar_R Rplus_0_l Cmath_R
           [1; 2]%R [3; 4]%R).
  - discriminate.
  - reflexivity.
Defined.

(** ** The values circular_convolution writes *)

Section ConvolutionValues.
Context {T : Type} `{ST : Scalar T}.

Lemma rotate_right_mod {A} (l : list A) (s : nat) :
  s <= length l -> rotate_right l (s mod length l) = rotate_right l s.
Proof.
  intros Hs. destruct l as [| a l]; [reflexivity |].
  destruct (Nat.eq_dec s (length (a :: l))) as [Hfull | Hpart].
  - rewrite Hfull, Nat.Div0.mod_same. unfold rotate_right, rotate.
    rewrite Nat.sub_diag, Nat.sub_0_r, skipn_all, firstn_all.
    simpl. now rewrite app_nil_r.
  - now rewrite Nat.mod_small by lia.
Qed.

(** The loop again, with the values it writes: pass [j] writes the reverse
    inner product of the first range with the second one rotated to the right
    by [(j + 1) * s] positions. *)
Lemma circular_convolution_loop_values (s : nat) (dist : nat) :
  forall c : ConvRanges,
    s <= length (second_range c) ->
    length (first_range c) <= length (second_range c) ->
    exists out,
      circular_convolution_loop dist c (Z.of_nat s) =
        ([], Returned
               (mkConvRanges (first_range c)
                  (rotate_right (second_range c)
                     ((dist * s) mod length (second_range c)))
                  (written c ++ out))) /\
      length out = dist /\
      forall j, j < dist ->
        option_map Some (nth_error out j) =
        Some (reverse_inner_product (first_range c)
                (rotate_right (second_range c)
                   ((S j * s) mod length (second_range c)))
                (of_int 0)).
Proof.
  induction dist as [| dist IH]; intros [seq1 seq2 w] Hs Hlen;
    cbn [first_range second_range written] in *.
  - exists []. split; [| split; [reflexivity | intros j Hj; lia]].
    cbn [circular_convolution_loop Nat.mul].
    rewrite Nat.Div0.mod_0_l, rotate_right_0, app_nil_r. reflexivity.
  - cbn [circular_convolution_loop first_range second_range written].
    assert (Hcond : ((0 <=? Z.of_nat s)%Z &&
                     (Z.of_nat s <=? Z.of_nat (length seq2))%Z)%bool = true).
    { apply andb_true_intro. split; apply Z.leb_le; lia. }
    rewrite Hcond.
    replace (Z.to_nat (Z.of_nat (length seq2) - Z.of_nat s))
      with (length seq2 - s) by lia.
    fold (rotate_right seq2 s).
    destruct (reverse_inner_product_loop_reads seq1
                (rev (rotate_right seq2 s)) (of_int 0)) as [v Hv].
    { rewrite length_rev, rotate_right_length. exact Hlen. }
    fold (reverse_inner_product seq1 (rotate_right seq2 s) (of_int 0)) in Hv.
    rewrite Hv. cbn [in_range]. rewrite bind_ret_l.
    destruct (IH (mkConvRanges seq1 (rotate_right seq2 s) (w ++ [v])))
      as (out & Hrun & Hout & Hvalues);
      cbn [first_range second_range written];
      try (rewrite rotate_right_length; assumption).
    cbn [first_range second_range written] in Hrun, Hvalues.
    rewrite rotate_right_length in Hrun, Hvalues.
    assert (Hmod : forall k, (k * s) mod length seq2 <= length seq2).
    { intros k. destruct seq2 as [| y seq2]; [simpl in *; subst; simpl; lia |].
      apply Nat.lt_le_incl, Nat.mod_upper_bound. discriminate. }
    assert (Htwice : forall k,
              rotate_right (rotate_right seq2 s) ((k * s) mod length seq2) =
              rotate_right seq2 ((S k * s) mod length seq2)).
    { intros k. rewrite rotate_right_twice by (try assumption; apply Hmod).
      now rewrite Nat.Div0.add_mod_idemp_r. }
    exists (v :: out). split; [| split].
    + rewrite Hrun, Htwice, <- app_assoc. reflexivity.
    + simpl. now rewrite Hout.
    + intros [| j] Hj.
      * cbn [nth_error option_map]. rewrite Nat.mul_1_l.
        rewrite rotate_right_mod by assumption. now rewrite Hv.
      * cbn [nth_error]. rewrite Hvalues by lia. now rewrite Htwice.
Qed.

(** X13: with [0 <= shift <= len(seq2)] and [len(seq1) <= len(seq2)], the
    value of index [j] that [circular_convolution] writes is the reverse inner
    product, from 0, of the first range with the second range as it was at
    the call rotated to the right by [((j + 1) * shift) mod len(seq2)]
    positions. *)
Theorem circular_convolution_values (seq1 seq2 : list T) (shift : Z) :
  (0 <= shift <= Z.of_nat (length seq2))%Z ->
  length seq1 <= length seq2 ->
  exists seq2' out,
    circular_convolution seq1 seq2 shift =
      ([], Returned (mkConvRanges seq1 seq2' out)) /\
    length out = length seq1 /\
    forall j, j < length seq1 ->
      exists v,
        nth_error out j = Some v /\
        reverse_inner_product seq1
          (rotate_right seq2 ((S j * Z.to_nat shift) mod length seq2))
          (of_int 0) = Some v.
Proof.
  intros Hshift Hlen. unfold circular_convolution.
  destruct (circular_convolution_loop_values (Z.to_nat shift) (length seq1)
              (mkConvRanges seq1 seq2 []))
    as (out & Hrun & Hout & Hvalues); cbn [first_range second_range written];
    try lia.
  cbn [first_range second_range written app] in Hrun, Hvalues.
  rewrite Z2Nat.id in Hrun by lia.
  eexists; exists out. split; [exact Hrun |]. split; [exact Hout |].
  intros j Hj. specialize (Hvalues j Hj).
  destruct (nth_error out j) as [v |] eqn:Hv; [| discriminate Hvalues].
  exists v. split; [reflexivity |].
  cbn [option_map] in Hvalues. now inversion Hvalues.
Qed.

Lemma reverse_inner_product_loop_short (seq1 : list T) :
  forall back2 init,
    length back2 < length seq1 ->
    reverse_inner_product_loop seq1 back2 init = None.
Proof.
  induction seq1 as [| x seq1 IH]; intros [| y back2] init Hlen;
    simpl in *; try lia; try reflexivity.
  apply IH. lia.
Qed.

(** X14: [circular_convolution] with an empty first range writes nothing and
    leaves the second range as it was, whatever the shift; with a first range
    that is not empty, a shift that is negative or larger than the second
    range makes [std::rotate] leave the range, and so does, with a shift in
    range, a first range longer than the second for the reverse inner
    product. *)
Theorem circular_convolution_edges (seq1 seq2 : list T) (shift : Z) :
  circular_convolution [] seq2 shift =
    ([], Returned (mkConvRanges [] seq2 [])) /\
  (seq1 <> [] -> (shift < 0 \/ Z.of_nat (length seq2) < shift)%Z ->
   circular_convolution seq1 seq2 shift = ([], Undefined)) /\
  ((0 <= shift <= Z.of_nat (length seq2))%Z -> length seq2 < length seq1 ->
   circular_convolution seq1 seq2 shift = ([], Undefined)).
Proof.
  split; [reflexivity |]. split.
  - intros Hne Hshift. destruct seq1 as [| x seq1]; [contradiction |].
    unfold circular_convolution.
    cbn [length circular_convolution_loop second_range].
    assert (Hcond : ((0 <=? shift)%Z &&
                     (shift <=? Z.of_nat (length seq2))%Z)%bool = false).
    { apply andb_false_iff. destruct Hshift as [H | H];
        [left | right]; apply Z.leb_gt; exact H. }
    now rewrite Hcond.
  - intros Hshift Hlen. destruct seq1 as [| x seq1]; [simpl in Hlen; lia |].
    unfold circular_convolution.
    cbn [length circular_convolution_loop first_range second_range].
    assert (Hcond : ((0 <=? shift)%Z &&
                     (shift <=? Z.of_nat (length seq2))%Z)%bool = true).
    { apply andb_true_intro. split; apply Z.leb_le; lia. }
    rewrite Hcond. unfold reverse_inner_product.
    rewrite reverse_inner_product_loop_short; [reflexivity |].
    rewrite length_rev, rotate_length. exact Hlen.
Qed.

End ConvolutionValues.

(** X13, witness: integers, [[1; 2; 3]] against [[4; 5; 6]], shift 1. *)
Lemma circular_convolution_values_witness :
  exists seq2' out,
    circular_convolution [1; 2; 3]%Z [4; 5; 6]%Z 1 =
      ([], Returned (mkConvRanges [1; 2; 3]%Z seq2' out)) /\
    length out = 3 /\
    forall j, j < 3 ->
      exists v,
        nth_error out j = Some v /\
        reverse_inner_product [1; 2; 3]%Z
          (rotate_right [4; 5; 6]%Z ((S j * Z.to_nat 1) mod 3)) 0%Z = Some v.
Proof.
  apply (@circular_convolution_values Z Scalar_Z [1; 2; 3]%Z [4; 5; 6]%Z 1%Z).
  - simpl. lia.
  - simpl. lia.
Defined.

(** ** The extrema the set distances pick *)

Section ExtremaValues.
Context {A : Type} (comp : A -> A -> Run bool) (dom : A -> Prop) (key : A -> R).
Hypothesis comp_key :
  forall x y, dom x -> dom y ->
    exists l, comp x y = (l, Returned (less (key x) (key y))).

Lemma less_R_pick_smaller (x s : A) :
  (key (if less (key x) (key s) then x else s) <= key x)%R /\
  (key (if less (key x) (key s) then x else s) <= key s)%R.
Proof.
  cbn [less Scalar_R]. destruct (Rlt_dec (key x) (key s)); lra.
Qed.

Lemma less_R_pick_larger (s x : A) :
  (key x <= key (if less (key s) (key x) then x else s))%R /\
  (key s <= key (if less (key s) (key x) then x else s))%R.
Proof.
  cbn [less Scalar_R]. destruct (Rlt_dec (key s) (key x)); lra.
Qed.

Lemma min_element_loop_least (rest : list A) :
  forall smallest,
    dom smallest -> Forall dom rest ->
    exists l r,
      min_element_loop comp smallest rest = (l, Returned r) /\
      dom r /\ In r (smallest :: rest) /\
      Forall (fun z => (key r <= key z)%R) (smallest :: rest).
Proof.
  induction rest as [| x rest IH]; intros smallest Hs Hrest.
  - exists [], smallest. repeat split; try assumption.
    + now left.
    + constructor; [lra | constructor].
  - inversion Hrest as [| ? ? Hx Hrest']; subst.
    destruct (comp_key x smallest Hx Hs) as [l Hcomp].
    set (next := if less (key x) (key smallest) then x else smallest) in *.
    assert (Hnext : dom next) by (unfold next; now destruct (less _ _)).
    destruct (IH next Hnext Hrest') as (l' & r & Hrun & Hr & Hin & Hleast).
    exists (l ++ l'), r. cbn [min_element_loop].
    rewrite Hcomp, bind_returned. fold next. rewrite Hrun.
    cbn [fst snd]. repeat split; try assumption.
    + destruct Hin as [Hin | Hin]; [| now right; right].
      subst r. unfold next. destruct (less _ _); [right; now left | now left].
    + inversion Hleast as [| ? ? Hrn Hrrest]; subst.
      destruct (less_R_pick_smaller x smallest) as [H1 H2]. fold next in H1, H2.
      constructor; [lra |]. constructor; [lra | exact Hrrest].
Qed.

Lemma max_element_loop_greatest (rest : list A) :
  forall largest,
    dom largest -> Forall dom rest ->
    exists l r,
      max_element_loop comp largest rest = (l, Returned r) /\
      dom r /\ In r (largest :: rest) /\
      Forall (fun z => (key z <= key r)%R) (largest :: rest).
Proof.
  induction rest as [| x rest IH]; intros largest Hs Hrest.
  - exists [], largest. repeat split; try assumption.
    + now left.
    + constructor; [lra | constructor].
  - inversion Hrest as [| ? ? Hx Hrest']; subst.
    destruct (comp_key largest x Hs Hx) as [l Hcomp].
    set (next := if less (key largest) (key x) then x else largest) in *.
    assert (Hnext : dom next) by (unfold next; now destruct (less _ _)).
    destruct (IH next Hnext Hrest') as (l' & r & Hrun & Hr & Hin & Hmost).
    exists (l ++ l'), r. cbn [max_element_loop].
    rewrite Hcomp, bind_returned. fold next. rewrite Hrun.
    cbn [fst snd]. repeat split; try assumption.
    + destruct Hin as [Hin | Hin]; [| now right; right].
      subst r. unfold next. destruct (less _ _); [right; now left | now left].
    + inversion Hmost as [| ? ? Hrn Hrrest]; subst.
      destruct (less_R_pick_larger largest x) as [H1 H2]. fold next in H1, H2.
      constructor; [lra |]. constructor; [lra | exact Hrrest].
Qed.

Lemma deref_min_element_least (l : list A) :
  l <> [] -> Forall dom l ->
  exists w r,
    deref_min_element l comp = (w, Returned r) /\
    dom r /\ In r l /\ Forall (fun z => (key r <= key z)%R) l.
Proof.
  destruct l as [| x rest]; intros Hne Hl; [contradiction |].
  inversion Hl; subst. now apply min_element_loop_least.
Qed.

Lemma deref_max_element_greatest (l : list A) :
  l <> [] -> Forall dom l ->
  exists w r,
    deref_max_element l comp = (w, Returned r) /\
    dom r /\ In r l /\ Forall (fun z => (key z <= key r)%R) l.
Proof.
  destruct l as [| x rest]; intros Hne Hl; [contradiction |].
  inversion Hl; subst. now apply max_element_loop_greatest.
Qed.

End ExtremaValues.

Section PointToSet.
Open Scope R_scope.

Lemma comp_point_distance_key (n : nat) (metric : DistanceMetric)
    (ref x y : list R) :
  dimension n ref -> dimension n x -> dimension n y ->
  exists l,
    comp_point_distance metric ref x y =
      (l, Returned (less (value_of (distance x ref metric))
                         (value_of (distance y ref metric)))).
Proof.
  unfold dimension. intros Href Hx Hy.
  destruct (distance_returns x ref metric) as (lx & vx & Hdx & _);
    [congruence |].
  destruct (distance_returns y ref metric) as (ly & vy & Hdy & _);
    [congruence |].
  exists (lx ++ ly ++ []). unfold comp_point_distance.
  rewrite Hdx, Hdy. reflexivity.
Qed.

Lemma distance_to_point_picks_extrema (n : nat) (metric : DistanceMetric)
    (set : list (list R)) (point : list R) :
  set <> [] -> Forall (dimension n) set -> dimension n point ->
  exists lo hi,
    returned_value (distance_to_point set point SDM_INFIMIM metric) = Some lo /\
    returned_value (distance_to_point set point SDM_SUPREMUM metric) = Some hi /\
    (exists q, In q set /\ returned_value (distance q point metric) = Some lo) /\
    (exists q, In q set /\ returned_value (distance q point metric) = Some hi) /\
    forall q d,
      In q set -> returned_value (distance q point metric) = Some d ->
      lo <= d <= hi.
Proof.
  intros Hne Hset Hpoint.
  pose (key := fun q : list R => value_of (distance q point metric)).
  assert (Hkey : forall x y, dimension n x -> dimension n y ->
            exists l, comp_point_distance metric point x y =
                      (l, Returned (less (key x) (key y)))).
  { intros x y Hx Hy. now apply comp_point_distance_key with (n := n). }
  destruct (deref_min_element_least _ _ key Hkey set Hne Hset)
    as (wl & ql & Hmin & Hdl & Hinl & Hleast).
  destruct (deref_max_element_greatest _ _ key Hkey set Hne Hset)
    as (wh & qh & Hmax & Hdh & Hinh & Hmost).
  assert (Hval : forall q, dimension n q ->
            returned_value (distance q point metric) = Some (key q)).
  { intros q Hq.
    destruct (distance_returns q point metric) as (l & v & Hd & _);
      [unfold dimension in *; congruence |].
    unfold key. now rewrite Hd. }
  assert (Hrun : forall w q, dimension n q ->
            returned_value
              (bind (w, Returned q) (fun tmp => distance tmp point metric)) =
            Some (key q)).
  { intros w q Hq. rewrite bind_returned. rewrite <- (Hval q Hq).
    now destruct (distance q point metric) as [l [v | |]]. }
  exists (key ql), (key qh). unfold distance_to_point.
  rewrite Hmin, Hmax, !Hrun by assumption.
  split; [reflexivity |]. split; [reflexivity |].
  split; [exists ql; split; [exact Hinl | now apply Hval] |].
  split; [exists qh; split; [exact Hinh | now apply Hval] |].
  intros q d Hin Hd.
  rewrite Forall_forall in Hleast, Hmost, Hset.
  rewrite (Hval q (Hset q Hin)) in Hd. inversion Hd; subst d.
  split; [now apply Hleast | now apply Hmost].
Qed.

(** X15: over the reals, for a non-empty set of points of the dimension of
    the point and every point metric, [distance_to_point] returns with
    SDM_INFIMIM the smallest and with SDM_SUPREMUM the largest of the values
    [distance] returns from the members of the set to the point; each is the
    distance of some member. *)
Theorem distance_to_point_extrema (n : nat) (metric : DistanceMetric)
    (set : list (list R)) (point : list R) :
  set <> [] -> Forall (dimension n) set -> dimension n point ->
  exists lo hi,
    returned_value (distance_to_point set point SDM_INFIMIM metric) = Some lo /\
    returned_value (distance_to_point set point SDM_SUPREMUM metric) = Some hi /\
    (exists q, In q set /\ returned_value (distance q point metric) = Some lo) /\
    (exists q, In q set /\ returned_value (distance q point metric) = Some hi) /\
    forall q d,
      In q set -> returned_value (distance q point metric) = Some d ->
      lo <= d <= hi.
Proof. apply distance_to_point_picks_extrema. Qed.

End PointToSet.

(** X15, witness: the points 3 and 6 of the real line seen from 1, with the
    Manhattan metric. *)
Lemma distance_to_point_extrema_witness :
  exists lo hi : R,
    returned_value
      (distance_to_point [[3%R]; [6%R]] [1%R] SDM_INFIMIM DM_MANHATTAN) = Some lo /\
    returned_value
      (distance_to_point [[3%R]; [6%R]] [1%R] SDM_SUPREMUM DM_MANHATTAN) = Some hi /\
    (exists q, In q [[3%R]; [6%R]] /\
               returned_value (distance q [1%R] DM_MANHATTAN) = Some lo) /\
    (exists q, In q [[3%R]; [6%R]] /\
               returned_value (distance q [1%R] DM_MANHATTAN) = Some hi) /\
    forall q d,
      In q [[3%R]; [6%R]] ->
      returned_value (distance q [1%R] DM_MANHATTAN) = Some d ->
      (lo <= d <= hi)%R.
Proof.
  apply (distance_to_point_extrema 1 DM_MANHATTAN [[3%R]; [6%R]] [1%R]).
  - discriminate.
  - repeat constructor.
  - reflexivity.
Defined.

Section SetToSet.
Open Scope R_scope.

Lemma comp_point_set_distance_key (n : nat) (metric : DistanceMetric)
    (set : list (list R)) (x y : list R) :
  set <> [] -> Forall (dimension n) set ->
  dimension n x -> dimension n y ->
  exists l,
    comp_point_set_distance SDM_INFIMIM metric set x y =
      (l, Returned
            (less (value_of (distance_to_point set x SDM_INFIMIM metric))
                  (value_of (distance_to_point set y SDM_INFIMIM metric)))).
Proof.
  intros Hne Hset Hx Hy.
  destruct (distance_to_point_infimum_returns n metric set x Hne Hset Hx)
    as (lx & vx & Hdx & _).
  destruct (distance_to_point_infimum_returns n metric set y Hne Hset Hy)
    as (ly & vy & Hdy & _).
  exists (lx ++ ly ++ []). unfold comp_point_set_distance.
  rewrite Hdx, Hdy. reflexivity.
Qed.

Lemma distance_to_set_SUPINF_picks (n : nat) (metric : DistanceMetric)
    (set1 set2 : list (list R)) :
  set1 <> [] -> set2 <> [] ->
  Forall (dimension n) set1 -> Forall (dimension n) set2 ->
  exists l d,
    distance_to_set_SUPINF set1 set2 metric = (l, Returned d) /\
    (exists p, In p set1 /\
       returned_value (distance_to_point set2 p SDM_INFIMIM metric) = Some d) /\
    forall p dp,
      In p set1 ->
      returned_value (distance_to_point set2 p SDM_INFIMIM metric) = Some dp ->
      dp <= d.
Proof.
  intros Hne1 Hne2 Hset1 Hset2.
  pose (key := fun p : list R =>
                 value_of (distance_to_point set2 p SDM_INFIMIM metric)).
  assert (Hkey : forall x y, dimension n x -> dimension n y ->
            exists l, comp_point_set_distance SDM_INFIMIM metric set2 x y =
                      (l, Returned (less (key x) (key y)))).
  { intros x y Hx Hy. now apply comp_point_set_distance_key with (n := n). }
  destruct (deref_max_element_greatest _ _ key Hkey set1 Hne1 Hset1)
    as (w & p & Hmax & Hdp & Hin & Hmost).
  assert (Hval : forall q, dimension n q ->
            exists l, distance_to_point set2 q SDM_INFIMIM metric =
                      (l, Returned (key q))).
  { intros q Hq.
    destruct (distance_to_point_infimum_returns n metric set2 q Hne2 Hset2 Hq)
      as (l & v & Hd & _).
    exists l. unfold key. now rewrite Hd. }
  destruct (Hval p Hdp) as [lp Hp].
  exists (w ++ lp), (key p). unfold distance_to_set_SUPINF.
  rewrite Hmax, bind_returned, Hp. split; [reflexivity |]. split.
  - exists p. split; [exact Hin | now rewrite Hp].
  - intros q dq Hq Hdq. rewrite Forall_forall in Hmost, Hset1.
    destruct (Hval q (Hset1 q Hq)) as [lq Hqrun].
    rewrite Hqrun in Hdq. inversion Hdq; subst dq. now apply Hmost.
Qed.

(** X16: over the reals, for two non-empty sets of points of one dimension,
    [distance_to_set] with SDM_SUPINF returns the largest, over the points of
    the first set, of the SDM_INFIMIM distances to the second set, and with
    SDM_HAUSDORFF a value that is one of the two SDM_SUPINF values and below
    neither. *)
Theorem supinf_is_largest_infimum (n : nat) (metric : DistanceMetric)
    (set1 set2 : list (list R)) :
  set1 <> [] -> set2 <> [] ->
  Forall (dimension n) set1 -> Forall (dimension n) set2 ->
  exists d d' h,
    returned_value (distance_to_set set1 set2 SDM_SUPINF metric) = Some d /\
    returned_value (distance_to_set set2 set1 SDM_SUPINF metric) = Some d' /\
    returned_value (distance_to_set set1 set2 SDM_HAUSDORFF metric) = Some h /\
    (exists p, In p set1 /\
       returned_value (distance_to_point set2 p SDM_INFIMIM metric) = Some d) /\
    (forall p dp,
       In p set1 ->
       returned_value (distance_to_point set2 p SDM_INFIMIM metric) = Some dp ->
       dp <= d) /\
    d <= h /\ d' <= h /\ (h = d \/ h = d').
Proof.
  intros Hne1 Hne2 Hset1 Hset2.
  destruct (distance_to_set_SUPINF_picks n metric set1 set2 Hne1 Hne2 Hset1 Hset2)
    as (l & d & Hrun & Hat & Hmost).
  destruct (distance_to_set_SUPINF_picks n metric set2 set1 Hne2 Hne1 Hset2 Hset1)
    as (l' & d' & Hrun' & _ & _).
  exists d, d', (Rmax d d'). unfold distance_to_set.
  rewrite Hrun, Hrun'. cbn [bind ret returned_value]. rewrite max_R.
  repeat split; try assumption.
  - apply Rmax_l.
  - apply Rmax_r.
  - unfold Rmax. destruct (Rle_dec d d'); [now right | now left].
Qed.

Lemma largest_gap_diag (p : list R) : largest_gap p p = 0.
Proof.
  induction p as [| x p IH]; [reflexivity |].
  rewrite largest_gap_cons, IH, Rminus_diag, Rabs_R0.
  apply Rmax_left. lra.
Qed.

(** Point metrics that are not negative and vanish between a point and
    itself. *)
Lemma metric_nonneg_diag (metric : DistanceMetric) :
  metric = DM_MANHATTAN \/ metric = DM_EUCLIDEAN \/ metric = DM_CHEBYSHEV ->
  (forall q p d,
     length q = length p ->
     returned_value (distance q p metric) = Some d -> 0 <= d) /\
  (forall p, returned_value (distance p p metric) = Some 0).
Proof.
  intros [-> | [-> | ->]]; split.
  - intros q p d Hlen. rewrite distance_manhattan by assumption.
    intros Hd. inversion Hd; subst. apply pair_sum_nonneg, taxicab_nonneg.
  - intros p. rewrite distance_manhattan by reflexivity.
    rewrite pair_sum_diag; [reflexivity |].
    intros x. unfold taxicab. cbn [abs sub Scalar_R].
    rewrite Rminus_diag. apply Rabs_R0.
  - intros q p d Hlen. rewrite distance_euclidean by assumption.
    intros Hd. inversion Hd; subst. apply sqrt_pos.
  - intros p. rewrite distance_euclidean by reflexivity.
    rewrite pair_sum_diag; [now rewrite sqrt_0 |].
    intros x. unfold euclidean. cbn [mul sub Scalar_R]. ring.
  - intros q p d Hlen. rewrite distance_chebyshev by assumption.
    intros Hd. inversion Hd; subst. apply largest_gap_nonneg.
  - intros p. rewrite distance_chebyshev by reflexivity.
    now rewrite largest_gap_diag.
Qed.

(** X17: over the reals, with the Manhattan, the Euclidean or the Chebyshev
    metric between points, the SDM_SUPINF and the SDM_HAUSDORFF distance of a
    non-empty set of points of one dimension to itself is 0. *)
Theorem hausdorff_to_itself_is_zero (n : nat) (metric : DistanceMetric)
    (set : list (list R)) :
  metric = DM_MANHATTAN \/ metric = DM_EUCLIDEAN \/ metric = DM_CHEBYSHEV ->
  set <> [] -> Forall (dimension n) set ->
  returned_value (distance_to_set set set SDM_SUPINF metric) = Some 0 /\
  returned_value (distance_to_set set set SDM_HAUSDORFF metric) = Some 0.
Proof.
  intros Hmetric Hne Hset.
  destruct (metric_nonneg_diag metric Hmetric) as [Hpos Hdiag].
  destruct (distance_to_set_SUPINF_picks n metric set set Hne Hne Hset Hset)
    as (l & d & Hrun & (p & Hin & Hp) & _).
  assert (Hdim : dimension n p).
  { rewrite Forall_forall in Hset. now apply Hset. }
  destruct (distance_to_point_picks_extrema n metric set p Hne Hset Hdim)
    as (lo & hi & Hlo & _ & (q & Hq & Hqd) & _ & Hbound).
  rewrite Hlo in Hp. inversion Hp; subst lo.
  assert (Hd : d = 0).
  { apply Rle_antisym.
    - apply (Hbound p 0 Hin (Hdiag p)).
    - apply (Hpos q p d); [| exact Hqd].
      rewrite Forall_forall in Hset. unfold dimension in *.
      rewrite (Hset q Hq). now symmetry. }
  subst d. unfold distance_to_set. rewrite Hrun.
  cbn [bind ret returned_value]. rewrite max_R.
  split; [reflexivity |]. now rewrite Rmax_left by lra.
Qed.

End SetToSet.

(** X16, witness: the sets {1, 3, 6, 7} and {3, 6} of points of the real
    line, with the Manhattan metric. *)
Lemma supinf_is_largest_infimum_witness :
  exists d d' h : R,
    returned_value
      (distance_to_set [[1%R]; [3%R]; [6%R]; [7%R]] [[3%R]; [6%R]]
         SDM_SUPINF DM_MANHATTAN) = Some d /\
    returned_value
      (distance_to_set [[3%R]; [6%R]] [[1%R]; [3%R]; [6%R]; [7%R]]
         SDM_SUPINF DM_MANHATTAN) = Some d' /\
    returned_value
      (distance_to_set [[1%R]; [3%R]; [6%R]; [7%R]] [[3%R]; [6%R]]
         SDM_HAUSDORFF DM_MANHATTAN) = Some h /\
    (exists p, In p [[1%R]; [3%R]; [6%R]; [7%R]] /\
       returned_value
         (distance_to_point [[3%R]; [6%R]] p SDM_INFIMIM DM_MANHATTAN) = Some d) /\
    (forall p dp,
       In p [[1%R]; [3%R]; [6%R]; [7%R]] ->
       returned_value
         (distance_to_point [[3%R]; [6%R]] p SDM_INFIMIM DM_MANHATTAN) = Some dp ->
       (dp <= d)%R) /\
    (d <= h)%R /\ (d' <= h)%R /\ (h = d \/ h = d').
Proof.
  apply (supinf_is_largest_infimum 1 DM_MANHATTAN
           [[1%R]; [3%R]; [6%R]; [7%R]] [[3%R]; [6%R]]).
  - discriminate.
  - discriminate.
  - repeat constructor.
  - repeat constructor.
Defined.

(** X17, witness: the set {3, 6} of points of the real line, Manhattan. *)
Lemma hausdorff_to_itself_is_zero_witness :
  returned_value
    (distance_to_set [[3%R]; [6%R]] [[3%R]; [6%R]] SDM_SUPINF DM_MANHATTAN) =
    Some 0%R /\
  returned_value
    (distance_to_set [[3%R]; [6%R]] [[3%R]; [6%R]] SDM_HAUSDORFF DM_MANHATTAN) =
    Some 0%R.
Proof.
  apply (hausdorff_to_itself_is_zero 1 DM_MANHATTAN [[3%R]; [6%R]]).
  - now left.
  - discriminate.
  - repeat constructor.
Defined.

(** ** Sets that distance_to_point cannot measure *)

Lemma snd_bind_failed {A B} (m : Run A) (f : A -> Run B) :
  snd m = AssertFailed -> snd (bind m f) = AssertFailed.
Proof. destruct m as [l [a | |]]; intros H; try discriminate H. reflexivity. Qed.

Lemma snd_bind_returned {A B} (l : list Msg) (a : A) (m : Run A)
    (f : A -> Run B) :
  m = (l, Returned a) -> snd (bind m f) = snd (f a).
Proof. intros ->. now rewrite bind_returned. Qed.

Section WrongDimension.
Context {T : Type} `{ST : Scalar T} `{CT : Cmath T}.
Variable metric : DistanceMetric.
Variable point : list T.

Lemma distance_mismatch_aborts (q : list T) :
  length q <> length point ->
  snd (distance q point metric) = AssertFailed.
Proof.
  intros Hlen. unfold distance.
  assert (Hneq : (length point =? length q) = false).
  { apply Nat.eqb_neq. congruence. }
  rewrite Hneq. reflexivity.
Qed.

Lemma comp_point_distance_aborts (x y : list T) :
  length x <> length point \/ length y <> length point ->
  snd (comp_point_distance metric point x y) = AssertFailed.
Proof.
  intros Hbad. unfold comp_point_distance.
  destruct (Nat.eq_dec (length x) (length point)) as [Hx | Hx].
  - destruct Hbad as [Hbad | Hy]; [contradiction |].
    destruct (distance_returns x point metric Hx) as (l & dx & Hdx & _).
    rewrite (snd_bind_returned l dx) by exact Hdx.
    apply snd_bind_failed. now apply distance_mismatch_aborts.
  - apply snd_bind_failed. now apply distance_mismatch_aborts.
Qed.

Lemma min_element_loop_aborts (rest : list (list T)) :
  forall smallest,
    rest <> [] ->
    length smallest <> length point \/
    Exists (fun q => length q <> length point) rest ->
    snd (min_element_loop (comp_point_distance metric point) smallest rest) =
      AssertFailed.
Proof.
  induction rest as [| x rest IH]; intros smallest Hne Hbad; [contradiction |].
  cbn [min_element_loop].
  destruct (Nat.eq_dec (length x) (length point)) as [Hx | Hx];
    [| apply snd_bind_failed, comp_point_distance_aborts; now left].
  destruct (Nat.eq_dec (length smallest) (length point)) as [Hs | Hs];
    [| apply snd_bind_failed, comp_point_distance_aborts; now right].
  destruct Hbad as [Hbad | Hbad]; [contradiction |].
  inversion Hbad as [? ? Hhead | ? ? Htail]; subst; [contradiction |].
  destruct (comp_point_distance_returns (length point) metric point x smallest)
    as (l & b & Hcomp & _); try assumption; try reflexivity.
  rewrite (snd_bind_returned l b) by exact Hcomp.
  apply IH; [| now right].
  intros ->. inversion Htail.
Qed.

Lemma max_element_loop_aborts (rest : list (list T)) :
  forall largest,
    rest <> [] ->
    length largest <> length point \/
    Exists (fun q => length q <> length point) rest ->
    snd (max_element_loop (comp_point_distance metric point) largest rest) =
      AssertFailed.
Proof.
  induction rest as [| x rest IH]; intros largest Hne Hbad; [contradiction |].
  cbn [max_element_loop].
  destruct (Nat.eq_dec (length x) (length point)) as [Hx | Hx];
    [| apply snd_bind_failed, comp_point_distance_aborts; now right].
  destruct (Nat.eq_dec (length largest) (length point)) as [Hs | Hs];
    [| apply snd_bind_failed, comp_point_distance_aborts; now left].
  destruct Hbad as [Hbad | Hbad]; [contradiction |].
  inversion Hbad as [? ? Hhead | ? ? Htail]; subst; [contradiction |].
  destruct (comp_point_distance_returns (length point) metric point largest x)
    as (l & b & Hcomp & _); try assumption; try reflexivity.
  rewrite (snd_bind_returned l b) by exact Hcomp.
  apply IH; [| now right].
  intros ->. inversion Htail.
Qed.

(** X18: [distance_to_point] with SDM_INFIMIM or SDM_SUPREMUM dereferences the
    end of an empty set, and stops at the size assertion of [distance] as
    soon as the set has a member whose size is not that of the point,
    wherever the member stands in the set. *)
Theorem distance_to_point_rejects (set : list (list T)) :
  (distance_to_point [] point SDM_INFIMIM metric = ([], Undefined) /\
   distance_to_point [] point SDM_SUPREMUM metric = ([], Undefined)) /\
  (Exists (fun q => length q <> length point) set ->
   snd (distance_to_point set point SDM_INFIMIM metric) = AssertFailed /\
   snd (distance_to_point set point SDM_SUPREMUM metric) = AssertFailed).
Proof.
  split; [split; reflexivity |].
  intros Hbad. destruct set as [| x rest]; [inversion Hbad |].
  unfold distance_to_point, deref_min_element, deref_max_element.
  destruct rest as [| y rest].
  - inversion Hbad as [? ? Hx | ? ? Htail]; subst; [| inversion Htail].
    cbn [min_element_loop max_element_loop]. rewrite !bind_ret_l.
    split; now apply distance_mismatch_aborts.
  - split; apply snd_bind_failed.
    + apply min_element_loop_aborts; [discriminate |].
      inversion Hbad; subst; [now left | now right].
    + apply max_element_loop_aborts; [discriminate |].
      inversion Hbad; subst; [now left | now right].
Qed.

(** X19: on ranges of equal size and for each of the eight implemented
    metrics, [distance] writes nothing to the error stream and returns. *)
Theorem distance_is_quiet (seq1 seq2 : list T) (m : DistanceMetric) :
  In m implemented_metrics ->
  length seq1 = length seq2 ->
  exists d, distance seq1 seq2 m = ([], Returned d).
Proof.
  intros Him Hlen. unfold distance.
  rewrite (distance_size_check_passes seq1 seq2 _ Hlen).
  destruct m;
    try (match goal with
         | |- context [inner_product seq1 seq2 ?i ?o1 ?o2] =>
             destruct (inner_product_reads o1 o2 seq1 seq2 i) as [v Hv];
             [lia | rewrite Hv]
         end; eexists; reflexivity).
  exfalso. unfold implemented_metrics in Him. simpl in Him.
  repeat (destruct Him as [Him | Him]; [discriminate Him |]). exact Him.
Qed.

End WrongDimension.

(** X18, witness: a set of points of the real line whose last member has two
    coordinates. *)
Lemma distance_to_point_rejects_witness :
  snd (distance_to_point [[3%R]; [6%R]; [1%R; 2%R]] [1%R]
         SDM_INFIMIM DM_MANHATTAN) = AssertFailed /\
  snd (distance_to_point [[3%R]; [6%R]; [1%R; 2%R]] [1%R]
         SDM_SUPREMUM DM_MANHATTAN) = AssertFailed.
Proof.
  apply (proj2 (@distance_to_point_rejects R Scalar_R Cmath_R DM_MANHATTAN
                  [1%R] [[3%R]; [6%R]; [1%R; 2%R]])).
  apply Exists_cons_tl, Exists_cons_tl, Exists_cons_hd. simpl. discriminate.
Defined.

(** X19, witness: the Hellinger metric on two ranges of two reals. *)
Lemma distance_is_quiet_witness :
  exists d : R, distance [1; 0]%R [0; 1]%R DM_HELLINGER = ([], Returned d).
Proof.
  apply (@distance_is_quiet R Scalar_R Cmath_R
           [1; 0]%R [0; 1]%R DM_HELLINGER).
  - unfold implemented_metrics. simpl. tauto.
  - reflexivity.
Defined.

(** ** The Bhattacharyya distance *)

Section BhattacharyyaDistance.
Open Scope R_scope.

(** X20: over the reals, for normalized histograms of one length whose
    Bhattacharyya coefficient is not 0, [distance] with DM_BHATTACHARYYA
    returns minus the logarithm of the coefficient, a value that is not
    negative and is 0 exactly when the coefficient is 1. *)
Theorem bhattacharyya_distance_nonneg (a b : list R) :
  normalized a -> normalized b -> length a = length b ->
  0 < coefficient a b ->
  distance a b DM_BHATTACHARYYA = ([], Returned (- ln (coefficient a b))) /\
  0 <= - ln (coefficient a b) /\
  (- ln (coefficient a b) = 0 <-> coefficient a b = 1).
Proof.
  intros [Ha Hsa] [Hb Hsb] Hlen Hpos.
  pose proof (coefficient_fold_bounds a b 0 Hlen Ha Hb) as Hc.
  fold (coefficient a b) in Hc. rewrite Hsa, Hsb in Hc.
  assert (Hln : coefficient a b < 1 -> ln (coefficient a b) < 0).
  { intros Hlt. rewrite <- ln_1. now apply ln_increasing. }
  split; [| split].
  - unfold distance. rewrite (distance_size_check_passes a b _ Hlen).
    rewrite inner_product_pair_sum by assumption.
    now rewrite <- coefficient_pair_sum.
  - destruct (Rle_lt_or_eq_dec (coefficient a b) 1) as [Hlt | Heq]; [lra | |].
    + specialize (Hln Hlt). lra.
    + rewrite Heq, ln_1. lra.
  - split.
    + intros Hzero.
      destruct (Rle_lt_or_eq_dec (coefficient a b) 1) as [Hlt | Heq];
        [lra | | exact Heq].
      specialize (Hln Hlt). lra.
    + intros ->. rewrite ln_1. lra.
Qed.

End BhattacharyyaDistance.

(** X20, witness: the histogram [[1; 0]] against itself. *)
Lemma bhattacharyya_distance_nonneg_witness :
  distance [1; 0]%R [1; 0]%R DM_BHATTACHARYYA =
    ([], Returned (- ln (coefficient [1; 0]%R [1; 0]%R))%R) /\
  (0 <= - ln (coefficient [1; 0]%R [1; 0]%R))%R /\
  ((- ln (coefficient [1; 0]%R [1; 0]%R))%R = 0%R <->
   coefficient [1; 0]%R [1; 0]%R = 1%R).
Proof.
  apply (bhattacharyya_distance_nonneg [1; 0]%R [1; 0]%R);
    [exact normalized_1_0 | exact normalized_1_0 | reflexivity |].
  rewrite coefficient_diag by (repeat constructor; lra).
  unfold bin_sum. simpl. lra.
Defined.
